(** * Pronunciation scoring: the alignment-and-scoring engine

    A shallow embedding of [PronunciationService._score] and its helpers
    ([_normalise], [_fluency_score], [_feedback]) from
    [app/services/pronunciation_service.py], together with the part of
    Python's [difflib.SequenceMatcher] that [_score] calls
    ([__chain_b], [find_longest_match], [get_matching_blocks],
    [get_opcodes], [ratio]).

    Conventions of the embedding:
    - a Python [float] is a primitive binary64 float; a Python number that
      may be an [int] or a [float] at run time is a [Py.num];
    - a Python [str] is the list of its code points;
    - a computation that can raise ([IndexError], [ZeroDivisionError]) or
      whose loop is run on fuel returns an [option]; [None] stands for the
      exception (or for exhausted fuel). *)

From Stdlib Require Import ZArith Floats String.
From stdpp Require Import gmap list sorting.

Set Warnings "-inexact-float".
#[local] Open Scope nat_scope.

(** ** Python numbers *)

Module Py.

Inductive num : Type :=
| Int (z : Z)
| Float (f : float).

(** [float(z)]: the binary64 value nearest to [z], ties to even. *)
Definition float_of_int (z : Z) : float :=
  SF2Prim (binary_normalize prec emax z 0 false).

Definition to_float (x : num) : float :=
  match x with
  | Int z => float_of_int z
  | Float f => f
  end.

(** [x + y] and [x * y]: integer arithmetic on two ints, otherwise the
    int operand is converted and the operation is the binary64 one. *)
Definition add (x y : num) : num :=
  match x, y with
  | Int a, Int b => Int (a + b)
  | _, _ => Float (to_float x + to_float y)
  end.

Definition mul (x y : num) : num :=
  match x, y with
  | Int a, Int b => Int (a * b)
  | _, _ => Float (to_float x * to_float y)
  end.

Definition is_zero (x : num) : bool :=
  match x with
  | Int z => Z.eqb z 0
  | Float f => (f =? 0)%float
  end.

(** [x / y] (true division): [ZeroDivisionError] on a zero divisor,
    otherwise a float.  For two ints below [2^53] in absolute value the
    correctly rounded quotient is the quotient of the conversions. *)
Definition truediv (x y : num) : option num :=
  if is_zero y then None else Some (Float (to_float x / to_float y)).

(** [x < y] and [x <= y].  Mixed comparisons are exact in Python; on the
    small integer constants of this program the conversion is exact. *)
Definition lt (x y : num) : bool :=
  match x, y with
  | Int a, Int b => Z.ltb a b
  | _, _ => (to_float x <? to_float y)%float
  end.

Definition le (x y : num) : bool :=
  match x, y with
  | Int a, Int b => Z.leb a b
  | _, _ => (to_float x <=? to_float y)%float
  end.

Definition gt (x y : num) : bool := lt y x.
Definition ge (x y : num) : bool := le y x.

(** [max(x, y)] keeps [x] unless [y > x]; [min(x, y)] keeps [x] unless
    [y < x].  The value returned keeps its own type. *)
Definition max (x y : num) : num := if gt y x then y else x.
Definition min (x y : num) : num := if lt y x then y else x.

(** The integer nearest to [n / d] for [0 < d], ties to even. *)
Definition round_half_even (n d : Z) : Z :=
  let q := (n / d)%Z in
  match (2 * (n mod d) ?= d)%Z with
  | Lt => q
  | Gt => (q + 1)%Z
  | Eq => if Z.even q then q else (q + 1)%Z
  end.

(** The number of tenths nearest to [m * 2^e], ties to even. *)
Definition tenths (m : positive) (e : Z) : Z :=
  if (0 <=? e)%Z then (10 * Z.pos m * 2 ^ e)%Z
  else round_half_even (10 * Z.pos m) (2 ^ (- e)).

(** The binary64 value nearest to [t / 10], with sign [s]: the quotient of
    two exact integers, correctly rounded. *)
Definition of_tenths (s : bool) (t : positive) : float :=
  SF2Prim (SFdiv prec emax (S754_finite s t 0) (S754_finite false 10 0)).

(** [round(x, 1)] on a float: the exact value of [x] is rounded to one
    decimal (correctly, ties to even) and the decimal is converted back
    to the nearest binary64 value; zeros, infinities and NaN round to
    themselves. *)
Definition round1_float (x : float) : float :=
  match Prim2SF x with
  | S754_finite s m e =>
      match tenths m e with
      | Z.pos t => of_tenths s t
      | _ => SF2Prim (S754_zero s)
      end
  | _ => x
  end.

(** [round(x, 1)]: an int is returned unchanged. *)
Definition round1 (x : num) : num :=
  match x with
  | Int z => Int z
  | Float f => Float (round1_float f)
  end.

End Py.

Export Py(num, Int, Float).

(** ** [difflib.SequenceMatcher]

    The matcher is built as [SequenceMatcher(None, a, b)]: no junk
    predicate, [autojunk] left at its default [True]. *)

Module Difflib.

(** A matching block [(i, j, size)]: [a[i:i+size] == b[j:j+size]]. *)
Definition Match : Type := nat * nat * nat.

(** The tags ['replace'], ['delete'], ['insert'] and ['equal']. *)
Inductive tag : Type := Replace | Delete | Insert | Equal.

(** An opcode [(tag, i1, i2, j1, j2)]. *)
Definition opcode : Type := tag * nat * nat * nat * nat.

(** Tuple comparison of [list.sort()] on matching blocks. *)
Definition Match_le (x y : Match) : Prop :=
  let '(i1, j1, k1) := x in
  let '(i2, j2, k2) := y in
  i1 < i2 ∨ (i1 = i2 ∧ (j1 < j2 ∨ (j1 = j2 ∧ k1 ≤ k2))).

#[global] Instance Match_le_dec x y : Decision (Match_le x y).
Proof. destruct x as [[??]?], y as [[??]?]; simpl; apply _. Defined.

Section matcher.
Context `{Countable A}.

(** The matcher object; [sm_a] and [sm_b] are its fields [a] and [b]. *)
Record SequenceMatcher : Type := {
  sm_a : list A;
  sm_b : list A;
  b2j : gmap A (list nat);
  bjunk : gset A;
  bpopular : gset A;
}.

(** [__chain_b]: index the positions of every element of [b]; with no
    junk predicate [bjunk] stays empty; when [b] has 200 elements or
    more, the elements occurring more than [n // 100 + 1] times are
    popular and leave the index. *)
Definition index_b (b : list A) : gmap A (list nat) :=
  foldl (λ (m : gmap A (list nat)) '(i, elt),
           <[elt := default [] (m !! elt) ++ [i]]> m)
        ∅ (imap pair b).

Definition popular_of (n : nat) (m : gmap A (list nat)) : gset A :=
  if decide (200 ≤ n)
  then dom (filter (λ kv, n / 100 + 1 < length kv.2) m)
  else ∅.

Definition new (a b : list A) : SequenceMatcher :=
  let m := index_b b in
  let popular := popular_of (length b) m in
  {| sm_a := a; sm_b := b;
     b2j := set_fold (λ elt m, delete elt m) m popular;
     bjunk := ∅;
     bpopular := popular |}.

Section find.
Variable sm : SequenceMatcher.

Definition isbjunk (x : A) : bool := bool_decide (x ∈ bjunk sm).

(** [j2len.get(j-1, 0)]: no key is negative, so the lookup at [-1]
    gives the default. *)
Definition j2lenget (j2len : gmap nat nat) (j : nat) : nat :=
  match j with
  | 0 => 0
  | S j' => default 0 (j2len !! j')
  end.

(** The inner loop [for j in b2j.get(a[i], nothing)].  The block
    recorded is [(i-k+1, j-k+1, k)]; [k] never exceeds [i+1] or
    [j+1] (lemma [scan_row_inv]), so the subtractions are exact. *)
Fixpoint scan_row (blo bhi i : nat) (j2len : gmap nat nat)
    (js : list nat) (newj2len : gmap nat nat) (best : Match)
    : gmap nat nat * Match :=
  match js with
  | [] => (newj2len, best)
  | j :: js' =>
      if decide (j < blo) then
        scan_row blo bhi i j2len js' newj2len best
      else if decide (bhi ≤ j) then (newj2len, best)
      else
        let k := j2lenget j2len j + 1 in
        let best' := if decide (best.2 < k)
                     then (i + 1 - k, j + 1 - k, k) else best in
        scan_row blo bhi i j2len js' (<[j := k]> newj2len) best'
  end.

(** The outer loop [for i in range(alo, ahi)]. *)
Fixpoint scan_rows (blo bhi : nat) (rows : list nat)
    (j2len : gmap nat nat) (best : Match) : option Match :=
  match rows with
  | [] => Some best
  | i :: rows' =>
      ai ← sm_a sm !! i;
      let '(newj2len, best') :=
        scan_row blo bhi i j2len (default [] (b2j sm !! ai)) ∅ best in
      scan_rows blo bhi rows' newj2len best'
  end.

(** [while besti > alo and bestj > blo and p(b[bestj-1]) and
    a[besti-1] == b[bestj-1]]: grow the block to the left. *)
Fixpoint extend_left (p : A → bool) (alo blo : nat)
    (besti bestj bestsize : nat) {struct besti} : option Match :=
  match besti, bestj with
  | S i', S j' =>
      if decide (alo < besti ∧ blo < bestj) then
        bj ← sm_b sm !! j';
        if p bj then
          ai ← sm_a sm !! i';
          if decide (ai = bj)
          then extend_left p alo blo i' j' (bestsize + 1)
          else Some (besti, bestj, bestsize)
        else Some (besti, bestj, bestsize)
      else Some (besti, bestj, bestsize)
  | _, _ => Some (besti, bestj, bestsize)
  end.

(** [while besti+bestsize < ahi and bestj+bestsize < bhi and
    p(b[bestj+bestsize]) and a[besti+bestsize] == b[bestj+bestsize]]:
    grow the block to the right.  [room] is [ahi - (besti+bestsize)],
    which every iteration lowers by one. *)
Fixpoint extend_right (p : A → bool) (bhi : nat) (besti bestj : nat)
    (room : nat) (bestsize : nat) : option Match :=
  match room with
  | 0 => Some (besti, bestj, bestsize)
  | S room' =>
      if decide (bestj + bestsize < bhi) then
        bj ← sm_b sm !! (bestj + bestsize);
        if p bj then
          ai ← sm_a sm !! (besti + bestsize);
          if decide (ai = bj)
          then extend_right p bhi besti bestj room' (bestsize + 1)
          else Some (besti, bestj, bestsize)
        else Some (besti, bestj, bestsize)
      else Some (besti, bestj, bestsize)
  end.

Definition extend (p : A → bool) (alo ahi blo bhi : nat) (m : Match)
    : option Match :=
  '(besti, bestj, bestsize) ← extend_left p alo blo m.1.1 m.1.2 m.2;
  extend_right p bhi besti bestj (ahi - (besti + bestsize)) bestsize.

Definition find_longest_match (alo ahi blo bhi : nat) : option Match :=
  m ← scan_rows blo bhi (seq alo (ahi - alo)) ∅ (alo, blo, 0);
  m ← extend (λ x, negb (isbjunk x)) alo ahi blo bhi m;
  extend isbjunk alo ahi blo bhi m.

(** The work list of [get_matching_blocks].  The head of [queue] is
    the end of Python's list, where [pop] and [append] work. *)
Fixpoint match_loop (fuel : nat) (queue : list (nat * nat * nat * nat))
    (matching_blocks : list Match) : option (list Match) :=
  match queue with
  | [] => Some matching_blocks
  | (alo, ahi, blo, bhi) :: queue =>
      match fuel with
      | 0 => None
      | S fuel =>
          x ← find_longest_match alo ahi blo bhi;
          let '(i, j, k) := x in
          if decide (k ≠ 0) then
            let queue :=
              if decide (alo < i ∧ blo < j)
              then (alo, i, blo, j) :: queue else queue in
            let queue :=
              if decide (i + k < ahi ∧ j + k < bhi)
              then (i + k, ahi, j + k, bhi) :: queue else queue in
            match_loop fuel queue (matching_blocks ++ [x])
          else match_loop fuel queue matching_blocks
      end
  end.

(** The pass that joins adjacent blocks; the state is the block
    [(i1, j1, k1)] being grown and the list [non_adjacent]. *)
Definition collapse_step (st : Match * list Match) (x : Match)
    : Match * list Match :=
  let '((i1, j1, k1), non_adjacent) := st in
  let '(i2, j2, k2) := x in
  if decide (i1 + k1 = i2 ∧ j1 + k1 = j2) then
    ((i1, j1, k1 + k2), non_adjacent)
  else
    ((i2, j2, k2),
     if decide (k1 ≠ 0) then non_adjacent ++ [(i1, j1, k1)]
     else non_adjacent).

Definition collapse (matching_blocks : list Match) : list Match :=
  let '((i1, j1, k1), non_adjacent) :=
    foldl collapse_step ((0, 0, 0), []) matching_blocks in
  if decide (k1 ≠ 0) then non_adjacent ++ [(i1, j1, k1)]
  else non_adjacent.

(** Every pass of the work list shortens the part of [a] still to be
    looked at, so [2 * len(a) + 1] passes are enough
    (lemma [match_loop_inv]). *)
Definition get_matching_blocks : option (list Match) :=
  let la := length (sm_a sm) in
  let lb := length (sm_b sm) in
  matching_blocks ← match_loop (2 * la + 1) [(0, la, 0, lb)] [];
  Some (collapse (merge_sort Match_le matching_blocks) ++ [(la, lb, 0)]).

Definition opcode_step (st : nat * nat * list opcode) (x : Match)
    : nat * nat * list opcode :=
  let '(i, j, answer) := st in
  let '(ai, bj, size) := x in
  let answer :=
    if decide (i < ai ∧ j < bj) then answer ++ [(Replace, i, ai, j, bj)]
    else if decide (i < ai) then answer ++ [(Delete, i, ai, j, bj)]
    else if decide (j < bj) then answer ++ [(Insert, i, ai, j, bj)]
    else answer in
  let '(i, j) := (ai + size, bj + size) in
  (i, j, if decide (size ≠ 0) then answer ++ [(Equal, ai, i, bj, j)]
         else answer).

Definition get_opcodes : option (list opcode) :=
  blocks ← get_matching_blocks;
  Some (foldl opcode_step (0, 0, []) blocks).2.

(** [_calculate_ratio(matches, length)]. *)
Definition _calculate_ratio (matches length : nat) : option num :=
  if decide (length ≠ 0) then
    Py.truediv (Py.mul (Float 2.0) (Int (Z.of_nat matches)))
               (Int (Z.of_nat length))
  else Some (Float 1.0).

Definition ratio : option num :=
  blocks ← get_matching_blocks;
  let matches := sum_list_with (λ triple : Match, triple.2) blocks in
  _calculate_ratio matches (length (sm_a sm) + length (sm_b sm)).

End find.
End matcher.

Arguments SequenceMatcher A {_ _} : assert.
End Difflib.

(** ** Python strings *)

(** A [str] is the sequence of its code points. *)
Abbreviation str := (list N).

(** The code points of a literal written in ASCII. *)
Definition str_of (s : string) : str :=
  map (λ c, N.of_nat (Ascii.nat_of_ascii c)) (list_ascii_of_string s).

(** What the interpreter's Unicode database decides: [str.lower], and the
    two character classes behind the patterns [\w] ([str.isalnum] or the
    underscore) and [\s] ([str.isspace], also used by [strip] and
    [split]). *)
Class Unicode : Type := {
  lower : str → str;
  isalnum : N → bool;
  isspace : N → bool;
}.

(** The database on the Basic Latin block.  Code points from 128 on are
    left alone by [lower] and belong to neither class; the texts evaluated
    below with this instance are ASCII (the one exception, the dash of the
    placeholder transcript, is punctuation in Unicode too). *)
Module BasicLatin.
Definition lower_cp (c : N) : N :=
  if ((65 <=? c) && (c <=? 90))%N then (c + 32)%N else c.
Definition alnum (c : N) : bool :=
  (((48 <=? c) && (c <=? 57)) || ((65 <=? c) && (c <=? 90))
   || ((97 <=? c) && (c <=? 122)))%N.
Definition space (c : N) : bool :=
  (((9 <=? c) && (c <=? 13)) || ((28 <=? c) && (c <=? 32)))%N.
Definition unicode : Unicode :=
  {| lower := map lower_cp; isalnum := alnum; isspace := space |}.
End BasicLatin.

Section text.
Context {U : Unicode}.

(** [\w] of a [str] pattern. *)
Definition is_word (c : N) : bool := isalnum c || N.eqb c 95.

(** [re.sub(r"[^\w\s]", "", text)]. *)
Definition strip_punctuation (text : str) : str :=
  List.filter (λ c, is_word c || isspace c) text.

(** [re.sub(r"\s+", " ", text)]; [in_run] tells that the previous
    character was a space of the run being replaced. *)
Fixpoint collapse_whitespace (in_run : bool) (text : str) : str :=
  match text with
  | [] => []
  | c :: text' =>
      if isspace c then
        if in_run then collapse_whitespace true text'
        else 32%N :: collapse_whitespace true text'
      else c :: collapse_whitespace false text'
  end.

Fixpoint lstrip (text : str) : str :=
  match text with
  | [] => []
  | c :: text' => if isspace c then lstrip text' else text
  end.

(** [text.strip()]. *)
Definition strip (text : str) : str :=
  reverse (lstrip (reverse (lstrip text))).

(** [text.split()]: the maximal runs of characters that are not spaces;
    [cur] is the word being read. *)
Fixpoint split_from (cur : str) (text : str) : list str :=
  match text with
  | [] => if cur is [] then [] else [cur]
  | c :: text' =>
      if isspace c then
        if cur is [] then split_from [] text'
        else cur :: split_from [] text'
      else split_from (cur ++ [c]) text'
  end.

Definition split (text : str) : list str := split_from [] text.

(** [_normalise]: lower-case, strip punctuation, collapse whitespace. *)
Definition _normalise (text : str) : str :=
  let text := lower text in
  let text := strip_punctuation text in
  strip (collapse_whitespace false text).
End text.

(** ** [PronunciationService] *)

Record WordError : Type := {
  word : str;
  expected : str;
  spoken : str;
  position : nat;
  is_correct : bool;
}.

(** The dictionary returned by [_score] (the [PronunciationResult] schema
    of the route). *)
Record PronunciationResult : Type := {
  overall_score : num;
  accuracy_score : num;
  fluency_score : num;
  word_errors : list WordError;
  feedback : string;
  spoken_text : str;
  expected_text : str;
}.

(** The service object: its only field is the transcription model, absent
    when Whisper could not be loaded. *)
Record PronunciationService (Model : Type) : Type := {
  _whisper_model : option Model;
}.

Section service.
Context {U : Unicode} {Model : Type}.

(** [_fluency_score]: approximate fluency from the word count ratio. *)
Definition _fluency_score (self : PronunciationService Model)
    (spoken_words expected_words : list str) : option num :=
  if expected_words is [] then Some (Float 100.0)
  else
    ratio ← Py.truediv (Int (Z.of_nat (length spoken_words)))
                       (Int (Z.of_nat (length expected_words)));
    if Py.le (Float 0.8) ratio && Py.le ratio (Float 1.2)
    then Some (Float 100.0)
    else if Py.le (Float 0.5) ratio && Py.le ratio (Float 1.5)
    then Some (Float 70.0)
    else Some (Float 40.0).

(** [_feedback]: the five fixed messages. *)
Definition _feedback (self : PronunciationService Model) (score : num)
    : string :=
  if Py.ge score (Int 90) then
    "Excellent pronunciation! You sound very natural."
  else if Py.ge score (Int 75) then
    "Great job! Just a few words to polish – keep practising!"
  else if Py.ge score (Int 60) then
    "Good effort! Try listening to the slow version and repeating."
  else if Py.ge score (Int 40) then
    "You're making progress! Focus on the highlighted words and try again."
  else
    "Keep going! Every attempt makes you better. Try saying it slowly first.".

(** The body of the [equal] branch's loop, for [idx] in [range(i1, i2)]. *)
Fixpoint score_equal (expected_words spoken_words : list str)
    (i1 j1 : nat) (idxs : list nat) (word_errors : list WordError)
    : option (list WordError) :=
  match idxs with
  | [] => Some word_errors
  | idx :: idxs =>
      w ← expected_words !! idx;
      s ← spoken_words !! (j1 + (idx - i1));
      score_equal expected_words spoken_words i1 j1 idxs
        (word_errors ++
           [{| word := w; expected := w; spoken := s;
               position := idx; is_correct := true |}])
  end.

(** The [replace] branch's loop over [enumerate(range(i1, i2))]. *)
Fixpoint score_replace (expected_words spoken_words : list str)
    (j1 : nat) (kidxs : list (nat * nat))
    (correct_count : num) (word_errors : list WordError)
    : option (num * list WordError) :=
  match kidxs with
  | [] => Some (correct_count, word_errors)
  | (k, idx) :: kidxs =>
      spoken_w ←
        (if decide (j1 + k < length spoken_words)
         then spoken_words !! (j1 + k) else Some []);
      w ← expected_words !! idx;
      sim ← Difflib.ratio (Difflib.new w spoken_w);
      let is_close := Py.ge sim (Float 0.6) in
      let correct_count :=
        if is_close then Py.add correct_count sim else correct_count in
      score_replace expected_words spoken_words j1 kidxs correct_count
        (word_errors ++
           [{| word := w; expected := w; spoken := spoken_w;
               position := idx; is_correct := is_close |}])
  end.

(** The [delete] branch's loop. *)
Fixpoint score_delete (expected_words : list str) (idxs : list nat)
    (word_errors : list WordError) : option (list WordError) :=
  match idxs with
  | [] => Some word_errors
  | idx :: idxs =>
      w ← expected_words !! idx;
      score_delete expected_words idxs
        (word_errors ++
           [{| word := w; expected := w; spoken := [];
               position := idx; is_correct := false |}])
  end.

(** The loop over [matcher.get_opcodes()]. *)
Fixpoint score_opcodes (expected_words spoken_words : list str)
    (opcodes : list Difflib.opcode)
    (correct_count : num) (word_errors : list WordError)
    : option (num * list WordError) :=
  match opcodes with
  | [] => Some (correct_count, word_errors)
  | (tag, i1, i2, j1, j2) :: opcodes =>
      '(correct_count, word_errors) ←
        match tag with
        | Difflib.Equal =>
            let correct_count :=
              Py.add correct_count (Int (Z.of_nat i2 - Z.of_nat i1)) in
            word_errors ← score_equal expected_words spoken_words i1 j1
                            (seq i1 (i2 - i1)) word_errors;
            Some (correct_count, word_errors)
        | Difflib.Replace =>
            score_replace expected_words spoken_words j1
              (imap pair (seq i1 (i2 - i1))) correct_count word_errors
        | Difflib.Delete =>
            word_errors ← score_delete expected_words (seq i1 (i2 - i1))
                            word_errors;
            Some (correct_count, word_errors)
        | Difflib.Insert => Some (correct_count, word_errors)
        end;
      score_opcodes expected_words spoken_words opcodes
        correct_count word_errors
  end.

(** [_score]: score spoken text against expected text. *)
Definition _score (self : PronunciationService Model)
    (spoken expected : str) : option PronunciationResult :=
  let spoken_clean := _normalise spoken in
  let expected_clean := _normalise expected in
  let spoken_words := split spoken_clean in
  let expected_words := split expected_clean in
  let matcher := Difflib.new expected_words spoken_words in
  let total := length expected_words in
  opcodes ← Difflib.get_opcodes matcher;
  '(correct_count, word_errors) ←
    score_opcodes expected_words spoken_words opcodes (Int 0) [];
  quotient ← Py.truediv correct_count (Py.max (Int (Z.of_nat total)) (Int 1));
  let accuracy := Py.mul quotient (Int 100) in
  fluency ← _fluency_score self spoken_words expected_words;
  let overall :=
    Py.add (Py.mul accuracy (Float 0.7)) (Py.mul fluency (Float 0.3)) in
  Some {|
    overall_score := Py.round1 (Py.min (Py.max overall (Int 0)) (Int 100));
    accuracy_score := Py.round1 (Py.min (Py.max accuracy (Int 0)) (Int 100));
    fluency_score := Py.round1 (Py.min (Py.max fluency (Int 0)) (Int 100));
    word_errors := word_errors;
    feedback := _feedback self overall;
    spoken_text := spoken;
    expected_text := expected;
  |}.
End service.

(** ** Notions used to state the properties *)

(** A text of the Basic Latin block. *)
Definition ascii_text (s : str) : Prop := Forall (λ c, (c < 128)%N) s.

#[global] Instance ascii_text_dec s : Decision (ascii_text s).
Proof. unfold ascii_text. apply _. Defined.

(** [U] decides the Basic Latin block the way CPython's database does. *)
Record basic_latin (U : Unicode) : Prop := {
  lower_ascii : ∀ s, ascii_text s → lower s = map BasicLatin.lower_cp s;
  isalnum_ascii : ∀ c, (c < 128)%N → isalnum c = BasicLatin.alnum c;
  isspace_ascii : ∀ c, (c < 128)%N → isspace c = BasicLatin.space c;
}.

(** The word sequence [_score] aligns: [_normalise(text).split()]. *)
Definition words_of {U : Unicode} (text : str) : list str :=
  split (_normalise text).

(** The service as it runs when Whisper cannot be loaded. *)
Definition fallback_service : PronunciationService unit :=
  {| _whisper_model := None |}.

(** The transcript [_transcribe] returns when there is no model:
    ["[transcription unavailable – connect ASR service]"]. *)
Definition placeholder : str :=
  str_of "[transcription unavailable " ++ [8211%N]
    ++ str_of " connect ASR service]".

(** The value a score is reported with: clamped to [0, 100], one decimal. *)
Definition reported (score : num) : num :=
  Py.round1 (Py.min (Py.max score (Int 0)) (Int 100)).

(** The fluency bands in the words of the specification: [0.8, 1.2] gives
    100; else [0.5, 1.5] gives 70; else 40; bounds inclusive. *)
Definition fluency_band (length_ratio : num) : num :=
  if bool_decide (Py.le (Float 0.8) length_ratio ∧ Py.le length_ratio (Float 1.2))
  then Float 100
  else if bool_decide (Py.le (Float 0.5) length_ratio
                       ∧ Py.le length_ratio (Float 1.5))
  then Float 70
  else Float 40.

(** The same bands on the exact quotient [spoken / expected] of two word
    counts, written without division. *)
Definition fluency_band_exact (spoken expected : nat) : num :=
  if bool_decide (4 * expected ≤ 5 * spoken ∧ 5 * spoken ≤ 6 * expected)
  then Float 100
  else if bool_decide (expected ≤ 2 * spoken ∧ 2 * spoken ≤ 3 * expected)
  then Float 70
  else Float 40.

(** What a report says about one expected word. *)
Definition verdict (w : WordError) : str * str * bool :=
  (expected w, spoken w, is_correct w).

(** What every report satisfies: it quotes the expected word at its
    position, and a word without a spoken counterpart is not correct. *)
Definition entry_ok (expected_words : list str) (w : WordError) : Prop :=
  expected_words !! position w = Some (expected w)
  ∧ word w = expected w
  ∧ (spoken w = [] → is_correct w = false).

(** The float quotient of two word counts falls in a band exactly when the
    exact quotient does. *)
Definition bands_agree (spoken expected : nat) : bool :=
  let ratio :=
    Float (Py.float_of_int (Z.of_nat spoken)
           / Py.float_of_int (Z.of_nat expected)) in
  bool_decide
    ((Py.le (Float 0.8) ratio && Py.le ratio (Float 1.2)
      ↔ 4 * expected ≤ 5 * spoken ∧ 5 * spoken ≤ 6 * expected)
     ∧ (Py.le (Float 0.5) ratio && Py.le ratio (Float 1.5)
        ↔ expected ≤ 2 * spoken ∧ 2 * spoken ≤ 3 * expected)).

(** ** Invariants of the matcher

    The predicates in which the facts about [SequenceMatcher] are stated;
    [la] and [lb] are the lengths of its two sequences. *)

Module Invariants.
Import Difflib.

Section matcher.
Context `{Countable A}.
Variable sm : SequenceMatcher A.

#[local] Abbreviation la := (length (sm_a sm)).
#[local] Abbreviation lb := (length (sm_b sm)).

(** Every recorded length [k] at column [j] fits between [blo] and [j],
    and within the [rows] rows of the region read so far. *)
Definition row_ok (blo rows : nat) (j2len : gmap nat nat) : Prop :=
  ∀ j k, j2len !! j = Some k → blo ≤ j ∧ k ≤ j + 1 - blo ∧ k ≤ rows.

(** The block lies in [a[alo:top]] and [b[blo:bhi]]. *)
Definition inside (alo top blo bhi : nat) (m : Match) : Prop :=
  alo ≤ m.1.1 ∧ m.1.1 + m.2 ≤ top ∧ blo ≤ m.1.2 ∧ m.1.2 + m.2 ≤ bhi.

(** A region that [get_matching_blocks] hands to [find_longest_match]. *)
Definition region_ok (r : nat * nat * nat * nat) : Prop :=
  let '(alo, ahi, blo, bhi) := r in
  alo ≤ ahi ∧ ahi ≤ la ∧ blo ≤ bhi ∧ bhi ≤ lb.

(** A half-open range of positions of [a]. *)
Definition apart (x y : nat * nat) : Prop := x.2 ≤ y.1 ∨ y.2 ≤ x.1.
Definition within (r x : nat * nat) : Prop := r.1 ≤ x.1 ∧ x.2 ≤ r.2.

Fixpoint pairwise_apart (l : list (nat * nat)) : Prop :=
  match l with
  | [] => True
  | x :: l => Forall (apart x) l ∧ pairwise_apart l
  end.

Definition block_span (m : Match) : nat * nat := (m.1.1, m.1.1 + m.2).
Definition region_span (r : nat * nat * nat * nat) : nat * nat :=
  (r.1.1.1, r.1.1.2).

(** A block proper: not empty, and inside both sequences. *)
Definition block_ok (m : Match) : Prop :=
  0 < m.2 ∧ m.1.1 + m.2 ≤ la ∧ m.1.2 + m.2 ≤ lb.

(** The passes a work list can still need. *)
Definition work (queue : list (nat * nat * nat * nat)) : nat :=
  sum_list_with (λ r, 2 * (r.1.1.2 - r.1.1.1) + 1) queue.

(** The blocks of [l] are proper, lie in [b], and follow one another
    through [a] from [lo] on, ending at or before [hi]. *)
Fixpoint chain (lo : nat) (l : list Match) (hi : nat) : Prop :=
  match l with
  | [] => lo ≤ hi
  | (i, j, k) :: l => lo ≤ i ∧ 0 < k ∧ j + k ≤ lb ∧ chain (i + k) l hi
  end.

(** An opcode proper: its range of [a] is well formed, an [equal]
    opcode stays inside [b], an [insert] opcode covers nothing of [a]. *)
Definition op_ok (op : opcode) : Prop :=
  let '(t, i1, i2, j1, j2) := op in
  i1 ≤ i2 ∧
  match t with
  | Equal => j1 + (i2 - i1) ≤ lb
  | Insert => i1 = i2
  | Replace | Delete => True
  end.

(** The ranges of [a] of the opcodes follow one another from [lo] to
    [hi] without gap or overlap. *)
Fixpoint tiling (lo : nat) (ops : list opcode) (hi : nat) : Prop :=
  match ops with
  | [] => lo = hi
  | (t, i1, i2, j1, j2) :: ops =>
      i1 = lo ∧ op_ok (t, i1, i2, j1, j2) ∧ tiling i2 ops hi
  end.
End matcher.
End Invariants.

(** ** The entry points: [evaluate] and the route

    [PronunciationService.get_instance], [__init__], [evaluate],
    [_transcribe], [_transcribe_whisper], and the route
    [evaluate_pronunciation] of [app/routes/pronunciation.py].  What the
    outside world does is a parameter: the model Whisper loads, if any, and
    the transcript it gives for a recording. *)

(** The upload of the route: its declared content type, and what
    [await audio.read()] gives ([None] when reading raises). *)
Record UploadFile : Type := {
  content_type : option str;
  read : option (list Byte.byte);
}.

(** What the route answers: the result, or an [HTTPException] with its
    status code and detail.  The detail of a 500 is the message of the
    exception caught, which the embedding does not keep: it is [None]. *)
Inductive response : Type :=
| Result (result : PronunciationResult)
| HTTPException (status_code : nat) (detail : option string).

Section entry_points.
Context {U : Unicode} {Model : Type}.

(** [model.transcribe(tmp_path, language=lang_code, fp16=False)] on the
    temporary file holding the recording, followed by
    [result.get("text", "")]; [None] when writing the file or Whisper
    raises. *)
Variable whisper_transcribe : Model → list Byte.byte → str → option str.

(** [language.split("-")[0]]: the text before the first separator. *)
Fixpoint first_field (sep : N) (text : str) : str :=
  match text with
  | [] => []
  | c :: text' => if N.eqb c sep then [] else c :: first_field sep text'
  end.

(** [__init__]: [load_model] is what [whisper.load_model("tiny")] gives
    when the instance is built, [None] when importing or loading raises. *)
Definition __init__ (load_model : option Model) : PronunciationService Model :=
  {| _whisper_model := load_model |}.

(** [get_instance]: the class attribute [_instance] is threaded through. *)
Definition get_instance (_instance : option (PronunciationService Model))
    (load_model : option Model)
    : PronunciationService Model * option (PronunciationService Model) :=
  match _instance with
  | None => let self := __init__ load_model in (self, Some self)
  | Some self => (self, Some self)
  end.

Definition _transcribe_whisper (self : PronunciationService Model)
    (audio_bytes : list Byte.byte) (language : str) : option str :=
  model ← _whisper_model _ self;
  let lang_code := first_field 45 language in
  text ← whisper_transcribe model audio_bytes lang_code;
  Some (strip text).

Definition _transcribe (self : PronunciationService Model)
    (audio_bytes : list Byte.byte) (language : str) : option str :=
  if _whisper_model _ self is Some _
  then _transcribe_whisper self audio_bytes language
  else Some placeholder.

Definition evaluate (self : PronunciationService Model)
    (audio_bytes : list Byte.byte) (expected_text language : str)
    : option PronunciationResult :=
  spoken_text ← _transcribe self audio_bytes language;
  _score self spoken_text expected_text.

(** [text.startswith(prefix)]. *)
Definition startswith (prefix text : str) : bool :=
  bool_decide (take (length prefix) text = prefix).

(** The truth value of an optional string: [None] and [""] are false. *)
Definition truthy (text : option str) : bool :=
  match text with
  | Some (_ :: _) => true
  | _ => false
  end.

(** The route [POST /pronunciation/evaluate]. *)
Definition evaluate_pronunciation
    (_instance : option (PronunciationService Model))
    (load_model : option Model)
    (audio : UploadFile) (expected_text language : str)
    : response * option (PronunciationService Model) :=
  if negb (truthy (content_type audio))
     || negb (startswith (str_of "audio/") (default [] (content_type audio)))
  then (HTTPException 400 (Some "Upload must be an audio file."%string),
        _instance)
  else
    match read audio with
    | None => (HTTPException 500 None, _instance)
    | Some audio_bytes =>
        let '(service, _instance) := get_instance _instance load_model in
        match evaluate service audio_bytes expected_text language with
        | Some result => (Result result, _instance)
        | None => (HTTPException 500 None, _instance)
        end
    end.
End entry_points.

(** ** Notions used to state the further properties *)

(** The class has no instance with a model, and none can be built with
    one: the service runs, or will run, without Whisper. *)
Definition fallback_mode {Model}
    (_instance : option (PronunciationService Model))
    (load_model : option Model) : Prop :=
  match _instance with
  | None => load_model = None
  | Some self => _whisper_model _ self = None
  end.

(** A binary64 value that is a number and not negative: a zero, a
    positive finite value or plus infinity. *)
Definition nonneg_sf (x : spec_float) : Prop :=
  match x with
  | S754_zero _ | S754_finite false _ _ | S754_infinity false => True
  | _ => False
  end.

Definition nonneg_float (x : float) : Prop := nonneg_sf (Prim2SF x).

(** A positive finite float. *)
Definition positive_finite (x : float) : bool :=
  match Prim2SF x with
  | S754_finite false _ _ => true
  | _ => false
  end.

(** A score from 0 to 100; a NaN is not one. *)
Definition in_range (score : num) : Prop :=
  Py.le (Int 0) score = true ∧ Py.le score (Int 100) = true.

(** The credit [correct_count] after the expected words before [lo]: an
    int that counts some of them, or a float that is a number and not
    negative. *)
Definition credit_ok (lo : nat) (correct_count : num) : Prop :=
  match correct_count with
  | Int z => (0 ≤ z ≤ Z.of_nat lo)%Z
  | Float f => nonneg_float f
  end.

(** The similarity test of the [replace] branch, on any two words. *)
Definition close (expected_w spoken_w : str) : bool :=
  match Difflib.ratio (Difflib.new expected_w spoken_w) with
  | Some sim => Py.ge sim (Float 0.6)
  | None => false
  end.

(** What a report's mark says about its two words. *)
Definition mark_ok (w : WordError) : Prop :=
  (close (expected w) (spoken w) = true → is_correct w = true)
  ∧ (is_correct w = true →
     spoken w = expected w ∨ close (expected w) (spoken w) = true).

(** The reports an opcode gives rise to all satisfy [P]. *)
Definition op_reports (expected_words spoken_words : list str)
    (P : WordError → Prop) (op : Difflib.opcode) : Prop :=
  let '(t, i1, i2, j1, j2) := op in
  match t with
  | Difflib.Equal =>
      ∀ idx w s, i1 ≤ idx < i2 →
        expected_words !! idx = Some w →
        spoken_words !! (j1 + (idx - i1)) = Some s →
        P {| word := w; expected := w; spoken := s; position := idx;
             is_correct := true |}
  | Difflib.Replace =>
      ∀ idx w s sim, i1 ≤ idx < i2 →
        expected_words !! idx = Some w →
        s = [] ∨ s ∈ spoken_words →
        Difflib.ratio (Difflib.new w s) = Some sim →
        P {| word := w; expected := w; spoken := s; position := idx;
             is_correct := Py.ge sim (Float 0.6) |}
  | Difflib.Delete =>
      ∀ idx w, i1 ≤ idx < i2 →
        expected_words !! idx = Some w →
        P {| word := w; expected := w; spoken := []; position := idx;
             is_correct := false |}
  | Difflib.Insert => True
  end.

(** A character that can stand in a word: a word character, not a space. *)
Definition word_char {U : Unicode} (c : N) : Prop :=
  is_word c = true ∧ isspace c = false.

(** What a result says, besides echoing the two texts. *)
Definition outcome (r : PronunciationResult)
    : num * num * num * list WordError * string :=
  (overall_score r, accuracy_score r, fluency_score r, word_errors r,
   feedback r).

(** An ASCII character that is neither a word character nor a space. *)
Definition ascii_punctuation (c : N) : Prop :=
  (c < 128)%N ∧ BasicLatin.alnum c = false ∧ c ≠ 95%N
  ∧ BasicLatin.space c = false.

(** ** Further invariants of the matcher *)

(** The blocks pair equal elements. *)
Module Alignment.
Import Difflib.

Section matcher.
Context `{Countable A}.
Variable sm : SequenceMatcher A.

(** The block pairs equal elements: [a[i+d] == b[j+d]] for [d < size]. *)
Definition matches (m : Match) : Prop :=
  ∀ d, d < m.2 → sm_a sm !! (m.1.1 + d) = sm_b sm !! (m.1.2 + d).

(** [j2len] before row [i]: a length [k] recorded at column [j] is that
    of a common run ending at [a[i-1]] and [b[j]]. *)
Definition runs (i : nat) (j2len : gmap nat nat) : Prop :=
  ∀ j k, j2len !! j = Some k →
    k ≤ i ∧ k ≤ j + 1
    ∧ ∀ d, d < k → sm_a sm !! (i - 1 - d) = sm_b sm !! (j - d).

(** An [equal] opcode pairs equal elements. *)
Definition op_matches (op : opcode) : Prop :=
  let '(t, i1, i2, j1, j2) := op in
  t = Equal → ∀ d, d < i2 - i1 → sm_a sm !! (i1 + d) = sm_b sm !! (j1 + d).

(** [b2j] holds, for each element it indexes, all its positions in [b],
    ascending. *)
Definition b2j_exact : Prop :=
  ∀ x js, b2j sm !! x = Some js →
    StronglySorted lt js ∧ ∀ j, j ∈ js ↔ sm_b sm !! j = Some x.

(** [b[j]] is indexed: it is not a popular element. *)
Definition indexed (j : nat) : bool :=
  match sm_b sm !! j with
  | Some x => bool_decide (is_Some (b2j sm !! x))
  | None => false
  end.

(** The length of the run of indexed elements of [b] that ends at [j]. *)
Fixpoint diag (j : nat) : nat :=
  match j with
  | 0 => if indexed 0 then 1 else 0
  | S j' => if indexed j then S (diag j') else 0
  end.

(** The same before [j]: the run that ends at [j - 1]. *)
Definition diag_before (j : nat) : nat :=
  match j with
  | 0 => 0
  | S j' => diag j'
  end.

(** [j2len] before row [i] when [a == b]: no run is longer than the one
    on the diagonal, which is recorded in full. *)
Definition below_diag (i : nat) (j2len : gmap nat nat) : Prop :=
  (∀ j k, j2len !! j = Some k → k ≤ diag_before i ∧ k ≤ diag j)
  ∧ (∀ i', i = S i' → 0 < diag i' → j2len !! i' = Some (diag i')).

(** The best block so far lies on the diagonal and is at least as long
    as every diagonal run of the rows read. *)
Definition on_diag (i : nat) (best : Match) : Prop :=
  best.1.1 = best.1.2 ∧ ∀ r, r < i → diag r ≤ best.2.
End matcher.
End Alignment.

(** The blocks advance through both sequences. *)
Module Partition.
Import Difflib.

(** A box of positions: the range [alo, ahi) of [a] and the range
    [blo, bhi) of [b]. *)
Definition box : Type := nat * nat * nat * nat.

Definition block_box (m : Match) : box :=
  (m.1.1, m.1.1 + m.2, m.1.2, m.1.2 + m.2).

(** [x] ends, in both sequences, where [y] starts or before. *)
Definition before (x y : box) : Prop :=
  x.1.1.2 ≤ y.1.1.1 ∧ x.2 ≤ y.1.2.

Definition ordered (x y : box) : Prop := before x y ∨ before y x.

(** [x] lies inside [r]. *)
Definition inbox (r x : box) : Prop :=
  r.1.1.1 ≤ x.1.1.1 ∧ x.1.1.2 ≤ r.1.1.2 ∧ r.1.2 ≤ x.1.2 ∧ x.2 ≤ r.2.

Fixpoint pairwise_ordered (l : list box) : Prop :=
  match l with
  | [] => True
  | x :: l => Forall (ordered x) l ∧ pairwise_ordered l
  end.

(** The blocks of [l] are not empty and follow one another through [a]
    from [lo.1] and through [b] from [lo.2], ending at or before [hi]. *)
Fixpoint chain2 (lo : nat * nat) (l : list Match) (hi : nat * nat) : Prop :=
  match l with
  | [] => lo.1 ≤ hi.1 ∧ lo.2 ≤ hi.2
  | (i, j, k) :: l =>
      lo.1 ≤ i ∧ lo.2 ≤ j ∧ 0 < k ∧ chain2 (i + k, j + k) l hi
  end.

(** What its tag says of an opcode's two ranges. *)
Definition tag_ok (op : opcode) : Prop :=
  let '(t, i1, i2, j1, j2) := op in
  match t with
  | Replace => i1 < i2 ∧ j1 < j2
  | Delete => i1 < i2 ∧ j1 = j2
  | Insert => i1 = i2 ∧ j1 < j2
  | Equal => i1 < i2 ∧ j1 < j2 ∧ i2 - i1 = j2 - j1
  end.

(** The opcodes follow one another, without gap or overlap, through [a]
    and through [b], from [lo] to [hi]. *)
Fixpoint tiling2 (lo : nat * nat) (ops : list opcode) (hi : nat * nat)
    : Prop :=
  match ops with
  | [] => lo = hi
  | (t, i1, i2, j1, j2) :: ops =>
      (i1, j1) = lo ∧ tag_ok (t, i1, i2, j1, j2) ∧ tiling2 (i2, j2) ops hi
  end.
End Partition.

(** * Properties *)

(** ** Texts of the Basic Latin block *)

Section basic_latin.
Context {U : Unicode} (HU : basic_latin U).
#[local] Abbreviation L := BasicLatin.unicode.

Lemma strip_punctuation_ascii s :
  ascii_text s →
  @strip_punctuation U s = @strip_punctuation L s
  ∧ ascii_text (@strip_punctuation L s).
Proof.
  unfold strip_punctuation, is_word, ascii_text.
  induction 1 as [|c s Hc Hs [IH1 IH2]]; simpl; [by split; constructor|].
  rewrite (isalnum_ascii _ HU c Hc), (isspace_ascii _ HU c Hc), IH1.
  split; [done|]. destruct (_ || _); [by constructor|done].
Qed.

Lemma collapse_whitespace_ascii s r :
  ascii_text s →
  @collapse_whitespace U r s = @collapse_whitespace L r s
  ∧ ascii_text (@collapse_whitespace L r s).
Proof.
  unfold ascii_text. intros Hs. revert r.
  induction Hs as [|c s Hc Hs IH]; intros r; simpl; [by split; constructor|].
  rewrite (isspace_ascii _ HU c Hc).
  destruct (IH true) as [Et At], (IH false) as [Ef Af].
  destruct (BasicLatin.space c), r; rewrite ?Et, ?Ef;
    (split; [done|]); try done; by constructor.
Qed.

Lemma lstrip_ascii s :
  ascii_text s →
  @lstrip U s = @lstrip L s ∧ ascii_text (@lstrip L s).
Proof.
  unfold ascii_text.
  induction 1 as [|c s Hc Hs [IH1 IH2]]; simpl; [by split; constructor|].
  rewrite (isspace_ascii _ HU c Hc).
  destruct (BasicLatin.space c); [done|]. split; [done|by constructor].
Qed.

Lemma strip_ascii s :
  ascii_text s → @strip U s = @strip L s ∧ ascii_text (@strip L s).
Proof.
  intros Hs. unfold strip.
  destruct (lstrip_ascii s Hs) as [-> Hs1].
  assert (ascii_text (reverse (@lstrip L s))) as Hs2
    by (unfold ascii_text; by rewrite Forall_reverse).
  destruct (lstrip_ascii _ Hs2) as [-> Hs3].
  split; [done|]. unfold ascii_text. by rewrite Forall_reverse.
Qed.

Lemma split_from_ascii cur s :
  ascii_text s → @split_from U cur s = @split_from L cur s.
Proof.
  intros Hs. revert cur.
  induction Hs as [|c s Hc Hs IH]; intros cur; simpl; [done|].
  rewrite (isspace_ascii _ HU c Hc).
  destruct (BasicLatin.space c), cur; by rewrite ?IH.
Qed.

Lemma words_of_ascii s :
  ascii_text s → @words_of U s = @words_of L s.
Proof.
  intros Hs. unfold words_of, _normalise, split.
  rewrite (lower_ascii _ HU s Hs). change (map BasicLatin.lower_cp s) with (@lower L s).
  assert (ascii_text (@lower L s)) as Hl.
  { simpl. apply Forall_fmap. eapply Forall_impl; [exact Hs|].
    intros c Hc. simpl. unfold BasicLatin.lower_cp.
    destruct (_ && _) eqn:E; [|done].
    apply andb_prop in E as [_ E%N.leb_le]. lia. }
  destruct (strip_punctuation_ascii _ Hl) as [-> Hp].
  destruct (collapse_whitespace_ascii _ false Hp) as [-> Hc].
  destruct (strip_ascii _ Hc) as [-> Ht].
  by apply split_from_ascii.
Qed.
End basic_latin.

(** ** [SequenceMatcher]: every block lies inside the region searched *)

Module DifflibFacts.
Import Difflib Invariants.

Section matcher.
Context `{Countable A}.
Variable sm : SequenceMatcher A.

#[local] Abbreviation la := (length (sm_a sm)).
#[local] Abbreviation lb := (length (sm_b sm)).
#[local] Abbreviation region_ok := (Invariants.region_ok sm).
#[local] Abbreviation block_ok := (Invariants.block_ok sm).
#[local] Abbreviation chain := (Invariants.chain sm).
#[local] Abbreviation op_ok := (Invariants.op_ok sm).
#[local] Abbreviation tiling := (Invariants.tiling sm).

Lemma row_ok_empty blo rows : row_ok blo rows ∅.
Proof. intros j k. by rewrite lookup_empty. Qed.

Lemma j2lenget_bound blo rows j2len j :
  row_ok blo rows j2len → blo ≤ j →
  j2lenget j2len j + 1 ≤ j + 1 - blo ∧ j2lenget j2len j ≤ rows.
Proof.
  intros Hok Hj. destruct j as [|j']; simpl; [lia|].
  destruct (j2len !! j') as [k|] eqn:E; simpl; [|lia].
  destruct (Hok _ _ E) as (? & ? & ?). lia.
Qed.

Lemma scan_row_inv alo blo bhi i j2len js newj2len best :
  alo ≤ i →
  row_ok blo (i - alo) j2len →
  row_ok blo (i + 1 - alo) newj2len →
  inside alo (i + 1) blo bhi best →
  row_ok blo (i + 1 - alo) (scan_row blo bhi i j2len js newj2len best).1
  ∧ inside alo (i + 1) blo bhi (scan_row blo bhi i j2len js newj2len best).2.
Proof.
  intros Hi Hold. revert newj2len best.
  induction js as [|j js IH]; intros newj2len best Hnew Hbest; simpl; [done|].
  destruct (decide (j < blo)); [by apply IH|].
  destruct (decide (bhi ≤ j)); [done|].
  destruct (j2lenget_bound blo (i - alo) j2len j Hold) as [Hk1 Hk2]; [lia|].
  apply IH.
  - intros j0 k0. rewrite lookup_insert. case_decide; [|by apply Hnew].
    intros [= <-]. subst j0. lia.
  - destruct (decide (best.2 < _)); [|done].
    unfold inside; simpl. lia.
Qed.

Lemma inside_top alo top top' blo bhi m :
  inside alo top blo bhi m → top ≤ top' → inside alo top' blo bhi m.
Proof. unfold inside. lia. Qed.

Lemma scan_rows_inside alo ahi blo bhi n i j2len best :
  alo ≤ i → i + n = ahi → ahi ≤ la →
  row_ok blo (i - alo) j2len →
  inside alo i blo bhi best →
  ∃ m, scan_rows sm blo bhi (seq i n) j2len best = Some m
       ∧ inside alo ahi blo bhi m.
Proof.
  revert i j2len best.
  induction n as [|n IH]; intros i j2len best Hi Hn Hahi Hrow Hbest; simpl.
  { exists best. split; [done|]. by replace ahi with i by lia. }
  destruct (lookup_lt_is_Some_2 (sm_a sm) i) as [ai ->]; [lia|]. simpl.
  pose proof (scan_row_inv alo blo bhi i j2len
                (default [] (b2j sm !! ai)) ∅ best Hi Hrow
                (row_ok_empty _ _)
                (inside_top _ _ (i + 1) _ _ _ Hbest ltac:(lia))) as [Hr Hb].
  destruct (scan_row _ _ _ _ _ _ _) as [newj2len best']; simpl in *.
  apply (IH (S i)); [lia|lia|done| |].
  - by replace (S i - alo) with (i + 1 - alo) by lia.
  - by replace (S i) with (i + 1) by lia.
Qed.

Lemma extend_left_inside p alo top blo bhi besti bestj bestsize :
  top ≤ la → bhi ≤ lb →
  inside alo top blo bhi (besti, bestj, bestsize) →
  ∃ m, extend_left sm p alo blo besti bestj bestsize = Some m
       ∧ inside alo top blo bhi m.
Proof.
  intros Htop Hbhi. revert bestj bestsize.
  induction besti as [|i' IH]; intros bestj bestsize Hin; simpl;
    [by eexists|].
  destruct bestj as [|j']; [by eexists|].
  destruct (decide (alo < S i' ∧ blo < S j')) as [[??]|]; [|by eexists].
  unfold inside in Hin; simpl in Hin.
  destruct (lookup_lt_is_Some_2 (sm_b sm) j') as [bj ->]; [lia|]. simpl.
  destruct (p bj); [|by eexists].
  destruct (lookup_lt_is_Some_2 (sm_a sm) i') as [ai ->]; [lia|]. simpl.
  destruct (decide (ai = bj)); [|by eexists].
  apply IH. unfold inside; simpl. lia.
Qed.

Lemma extend_right_inside p alo ahi blo bhi besti bestj room bestsize :
  ahi ≤ la → bhi ≤ lb →
  room ≤ ahi - (besti + bestsize) →
  inside alo ahi blo bhi (besti, bestj, bestsize) →
  ∃ m, extend_right sm p bhi besti bestj room bestsize = Some m
       ∧ inside alo ahi blo bhi m.
Proof.
  intros Hahi Hbhi. revert bestsize.
  induction room as [|room IH]; intros bestsize Hroom Hin; simpl;
    [by eexists|].
  destruct (decide (bestj + bestsize < bhi)); [|by eexists].
  unfold inside in Hin; simpl in Hin.
  destruct (lookup_lt_is_Some_2 (sm_b sm) (bestj + bestsize)) as [bj ->];
    [lia|]. simpl.
  destruct (p bj); [|by eexists].
  destruct (lookup_lt_is_Some_2 (sm_a sm) (besti + bestsize)) as [ai ->];
    [lia|]. simpl.
  destruct (decide (ai = bj)); [|by eexists].
  apply IH; [lia|]. unfold inside; simpl. lia.
Qed.

Lemma extend_inside p alo ahi blo bhi m :
  ahi ≤ la → bhi ≤ lb →
  inside alo ahi blo bhi m →
  ∃ m', extend sm p alo ahi blo bhi m = Some m'
        ∧ inside alo ahi blo bhi m'.
Proof.
  intros Hahi Hbhi Hin. unfold extend.
  destruct m as [[besti bestj] bestsize]; simpl.
  destruct (extend_left_inside p alo ahi blo bhi besti bestj bestsize)
    as ([[i j] k] & -> & Hin'); [done..|]. simpl.
  by apply (extend_right_inside p alo).
Qed.

Lemma find_longest_match_inside alo ahi blo bhi :
  region_ok (alo, ahi, blo, bhi) →
  ∃ m, find_longest_match sm alo ahi blo bhi = Some m
       ∧ inside alo ahi blo bhi m.
Proof.
  intros (Ha & Hahi & Hb & Hbhi). unfold find_longest_match.
  destruct (scan_rows_inside alo ahi blo bhi (ahi - alo) alo ∅ (alo, blo, 0))
    as (m1 & -> & H1); [lia|lia|done|apply row_ok_empty| |].
  { unfold inside; simpl. lia. }
  simpl.
  destruct (extend_inside (λ x, negb (isbjunk sm x)) alo ahi blo bhi m1)
    as (m2 & -> & H2); [done..|]. simpl.
  by apply extend_inside.
Qed.

(** *** The work list: blocks found are pairwise apart in [a] *)

Lemma work_cons alo ahi blo bhi queue :
  work ((alo, ahi, blo, bhi) :: queue) = 2 * (ahi - alo) + 1 + work queue.
Proof. done. Qed.

Lemma work_app q1 q2 : work (q1 ++ q2) = work q1 + work q2.
Proof. apply sum_list_with_app. Qed.

Lemma apart_sym x y : apart x y → apart y x.
Proof. unfold apart. lia. Qed.

Lemma apart_within r x y : apart r y → within r x → apart x y.
Proof. unfold apart, within. lia. Qed.

Lemma pairwise_apart_perm l l' :
  l ≡ₚ l' → pairwise_apart l → pairwise_apart l'.
Proof.
  induction 1 as [|x l l' Hp IH|x y l|l l' l'' _ IH1 _ IH2]; simpl.
  - done.
  - intros [Hx Hl]. split; [by rewrite <- Hp|by apply IH].
  - intros [Hy [Hx Hl]]. inversion Hy as [|? ? Hyx Hyl]; subst.
    repeat split; try done. constructor; [by apply apart_sym|done].
  - intros Hl. by apply IH2, IH1.
Qed.

Lemma pairwise_apart_refine r parts rest :
  pairwise_apart (r :: rest) →
  Forall (within r) parts → pairwise_apart parts →
  pairwise_apart (parts ++ rest).
Proof.
  intros [Hr Hrest]. induction parts as [|x parts IH]; simpl; [done|].
  intros Hw [Hx Hparts]. inversion Hw as [|? ? Hwx Hwp]; subst.
  split; [|by apply IH].
  apply Forall_app. split; [done|].
  eapply Forall_impl; [exact Hr|]. intros y Hy. by eapply apart_within.
Qed.

#[local] Ltac span_lia :=
  unfold apart, within, region_span, block_span in *; simpl in *; lia.

Lemma match_loop_inv fuel queue blocks :
  Forall region_ok queue → Forall block_ok blocks →
  pairwise_apart (map block_span blocks ++ map region_span queue) →
  work queue ≤ fuel →
  ∃ blocks', match_loop sm fuel queue blocks = Some blocks'
             ∧ Forall block_ok blocks'
             ∧ pairwise_apart (map block_span blocks').
Proof.
  revert queue blocks.
  induction fuel as [|fuel IH]; intros queue blocks Hq Hb Hp Hw;
    destruct queue as [|[[[alo ahi] blo] bhi] queue]; simpl.
  1,3: exists blocks; by rewrite app_nil_r in Hp.
  { rewrite work_cons in Hw. lia. }
  inversion Hq as [|? ? Hr Hq']; subst.
  destruct (find_longest_match_inside alo ahi blo bhi Hr)
    as ([[i j] k] & -> & Hin). simpl.
  unfold inside in Hin; simpl in Hin. destruct Hr as (?&?&?&?).
  assert (pairwise_apart
            ((alo, ahi) :: map block_span blocks ++ map region_span queue))
    as Hp'.
  { eapply pairwise_apart_perm; [|exact Hp]. simpl.
    by rewrite <- Permutation_middle. }
  rewrite work_cons in Hw.
  destruct (decide (k ≠ 0)); [|apply IH; [done|done|apply Hp'|lia]].
  set (left := if decide (alo < i ∧ blo < j)
               then [(alo, i, blo, j)] else []).
  set (right := if decide (i + k < ahi ∧ j + k < bhi)
                then [(i + k, ahi, j + k, bhi)] else []).
  assert ((if decide (i + k < ahi ∧ j + k < bhi)
           then (i + k, ahi, j + k, bhi)
                :: (if decide (alo < i ∧ blo < j)
                    then (alo, i, blo, j) :: queue else queue)
           else if decide (alo < i ∧ blo < j)
                then (alo, i, blo, j) :: queue else queue)
          = right ++ left ++ queue) as ->.
  { unfold left, right. by repeat case_decide. }
  apply IH.
  - apply Forall_app. split; [|apply Forall_app; split; [|done]].
    + unfold right. case_decide; repeat constructor; simpl; lia.
    + unfold left. case_decide; repeat constructor; simpl; lia.
  - apply Forall_app. split; [done|].
    repeat constructor; simpl; lia.
  - eapply pairwise_apart_perm;
      [|apply (pairwise_apart_refine (alo, ahi)
                 (block_span (i, j, k) :: map region_span right
                    ++ map region_span left) _ Hp')].
    + rewrite !map_app. simpl.
      rewrite <- !app_assoc. simpl.
      rewrite <- Permutation_middle. f_equiv.
      rewrite !app_assoc. f_equiv.
      rewrite <- !app_assoc.
      by rewrite (Permutation_app_comm (map block_span blocks)),
                 <- !app_assoc.
    + constructor; [span_lia|].
      apply Forall_app. unfold left, right.
      split; case_decide; repeat constructor; span_lia.
    + simpl. unfold left, right.
      repeat case_decide; simpl;
        repeat (split || constructor); span_lia.
  - rewrite !work_app. unfold left, right.
    repeat case_decide; rewrite ?work_cons; change (work []) with 0; lia.
Qed.

(** *** Sorting and joining: the blocks advance through [a] *)

Lemma chain_mono lo l hi hi' : chain lo l hi → hi ≤ hi' → chain lo l hi'.
Proof.
  revert lo. induction l as [|[[i j] k] l IH]; intros lo; simpl; [lia|].
  intros (?&?&?&?) ?. eauto.
Qed.

Lemma chain_snoc lo l mid i j k :
  chain lo l mid → mid ≤ i → 0 < k → j + k ≤ lb →
  chain lo (l ++ [(i, j, k)]) (i + k).
Proof.
  revert lo. induction l as [|[[i' j'] k'] l IH]; intros lo; simpl.
  - lia.
  - intros (?&?&?&?) ???. eauto.
Qed.

Lemma sorted_chain l lo :
  StronglySorted Match_le l →
  pairwise_apart (map block_span l) →
  Forall block_ok l →
  Forall (λ m, lo ≤ m.1.1) l → lo ≤ la →
  chain lo l la.
Proof.
  intros Hs. revert lo.
  induction Hs as [|[[i j] k] l Hs IH Hx]; intros lo Hp Hb Hlo Hla;
    simpl; [done|].
  destruct Hp as [Hap Hp].
  inversion Hb as [|? ? (Hk & Hi & Hj) Hb']; subst. simpl in *.
  inversion Hlo as [|? ? Hi0 _]; subst. simpl in *.
  repeat split; try done.
  apply IH; try done.
  apply Forall_forall. intros [[i' j'] k'] Hin.
  rewrite Forall_forall in Hx. rewrite Forall_forall in Hap.
  rewrite Forall_forall in Hb'.
  pose proof (Hx _ Hin) as Hle.
  pose proof (Hb' _ Hin) as (Hk' & _).
  pose proof (Hap (block_span (i', j', k'))
                ltac:(by apply list_elem_of_fmap_2)) as Hap'.
  unfold apart, block_span in Hap'. simpl in *. lia.
Qed.

#[local] Instance Match_le_trans : Transitive Match_le.
Proof. intros [[??]?] [[??]?] [[??]?]; simpl. lia. Qed.

#[local] Instance Match_le_total : Total Match_le.
Proof. intros [[??]?] [[??]?]; simpl. lia. Qed.

Lemma collapse_chain l :
  chain 0 l la → chain 0 (collapse l) la.
Proof.
  unfold collapse.
  assert (∀ rest i1 j1 k1 out lo,
            chain 0 out lo →
            (if decide (k1 ≠ 0)
             then lo ≤ i1 ∧ j1 + k1 ≤ lb ∧ chain (i1 + k1) rest la
             else chain lo rest la) →
            ∃ lo',
              chain 0 (foldl collapse_step (i1, j1, k1, out) rest).2 lo'
              ∧ let '(i, j, k) :=
                  (foldl collapse_step (i1, j1, k1, out) rest).1 in
                if decide (k ≠ 0)
                then lo' ≤ i ∧ j + k ≤ lb ∧ i + k ≤ la
                else lo' ≤ la) as Hfold.
  { induction rest as [|[[i2 j2] k2] rest IH];
      intros i1 j1 k1 out lo Hout Hcur; simpl.
    { exists lo. split; [done|]. case_decide; simpl in *; lia. }
    destruct (decide (k1 ≠ 0)) as [Hk1|Hk1]; simpl in Hcur.
    - destruct Hcur as (? & ? & ? & ? & ? & ?).
      case_decide as Hadj.
      + apply (IH _ _ _ _ lo); [done|].
        rewrite decide_True by lia.
        destruct Hadj as [<- <-].
        replace (i1 + (k1 + k2)) with (i1 + k1 + k2) by lia.
        repeat split; [lia|lia|done].
      + apply (IH _ _ _ _ (i1 + k1)).
        * apply (chain_snoc _ _ lo); [done|lia..].
        * rewrite decide_True by lia. done.
    - destruct Hcur as (? & ? & ? & ?).
      assert (k1 = 0) as -> by lia.
      case_decide as Hadj.
      + apply (IH _ _ _ _ lo); [done|].
        rewrite decide_True by lia.
        destruct Hadj as [Hi Hj]. rewrite Nat.add_0_r in Hi, Hj. subst.
        done.
      + apply (IH _ _ _ _ lo); [done|].
        rewrite decide_True by lia. done. }
  intros Hl.
  destruct (Hfold l 0 0 0 [] 0) as (lo' & Hout & Hcur); [simpl; lia|done|].
  destruct (foldl collapse_step _ l) as [[[i j] k] out]; simpl in *.
  destruct (decide (k ≠ 0)).
  - destruct Hcur as (? & ? & ?).
    apply (chain_mono _ _ (i + k)); [|done].
    apply (chain_snoc _ _ lo'); [done|lia..].
  - by apply (chain_mono _ _ lo').
Qed.

(** [get_matching_blocks] returns; its blocks advance through [a] and
    end with the sentinel [(len(a), len(b), 0)]. *)
Lemma get_matching_blocks_chain :
  ∃ blocks, get_matching_blocks sm = Some (blocks ++ [(la, lb, 0)])
            ∧ chain 0 blocks la.
Proof.
  unfold get_matching_blocks.
  destruct (match_loop_inv (2 * la + 1) [(0, la, 0, lb)] [])
    as (found & -> & Hok & Hap).
  - repeat constructor; simpl; lia.
  - constructor.
  - simpl. repeat constructor.
  - rewrite work_cons. change (work []) with 0. lia.
  - simpl. eexists. split; [done|].
    apply collapse_chain, sorted_chain.
    + apply StronglySorted_merge_sort; apply _.
    + eapply pairwise_apart_perm; [|exact Hap].
      by rewrite merge_sort_Permutation.
    + by rewrite merge_sort_Permutation.
    + apply Forall_forall. intros; lia.
    + lia.
Qed.

(** *** Opcodes tile [a] *)

Lemma tiling_snoc lo ops mid t i2 j1 j2 :
  tiling lo ops mid → op_ok (t, mid, i2, j1, j2) →
  tiling lo (ops ++ [(t, mid, i2, j1, j2)]) i2.
Proof.
  revert lo. induction ops as [|[[[[t' i1'] i2'] j1'] j2'] ops IH];
    intros lo; simpl.
  - intros <- ?. done.
  - intros (-> & ? & ?) ?. eauto.
Qed.

Lemma opcode_step_tiling i j answer ai bj size :
  tiling 0 answer i → i ≤ ai → bj + size ≤ lb →
  tiling 0 (opcode_step (i, j, answer) (ai, bj, size)).2
         (opcode_step (i, j, answer) (ai, bj, size)).1.1
  ∧ (opcode_step (i, j, answer) (ai, bj, size)).1.1 = ai + size.
Proof.
  intros Hans Hi Hj. unfold opcode_step. simpl. split; [|done].
  assert (∀ ans, tiling 0 ans ai →
            tiling 0 (if decide (size ≠ 0)
                      then ans ++ [(Equal, ai, ai + size, bj, bj + size)]
                      else ans) (ai + size)) as Heq.
  { intros ans Hai. case_decide.
    - apply (tiling_snoc _ _ ai); [done|]. simpl. lia.
    - by replace (ai + size) with ai by lia. }
  apply Heq.
  repeat case_decide;
    try (apply (tiling_snoc _ _ i); [done|]; simpl; lia).
  all: by replace ai with i by lia.
Qed.

Lemma opcodes_tiling l i j answer hi :
  tiling 0 answer i → chain i l hi →
  tiling 0 (foldl opcode_step (i, j, answer) l).2
         (foldl opcode_step (i, j, answer) l).1.1
  ∧ (foldl opcode_step (i, j, answer) l).1.1 ≤ hi.
Proof.
  revert i j answer.
  induction l as [|[[ai bj] size] l IH]; intros i j answer Hans Hl;
    [done|].
  cbn [foldl]. simpl in Hl. destruct Hl as (? & ? & ? & Hl).
  destruct (opcode_step_tiling i j answer ai bj size) as [Ht Hi];
    [done..|].
  destruct (opcode_step (i, j, answer) (ai, bj, size)) as [[i' j'] ans'].
  simpl in Ht, Hi. subst i'. by apply IH.
Qed.

(** [get_opcodes] returns, and its opcodes tile [a]. *)
Lemma get_opcodes_tiling :
  ∃ ops, get_opcodes sm = Some ops ∧ tiling 0 ops la.
Proof.
  unfold get_opcodes.
  destruct get_matching_blocks_chain as (blocks & -> & Hch). simpl.
  eexists. split; [done|]. rewrite foldl_app. cbn [foldl].
  destruct (opcodes_tiling blocks 0 0 [] la) as [Ht Hle]; [done..|].
  destruct (foldl opcode_step (0, 0, []) blocks) as [[i j] answer].
  simpl in Ht, Hle.
  destruct (opcode_step_tiling i j answer la lb 0) as [Ht' Hi];
    [done|done|lia|].
  by rewrite Hi, Nat.add_0_r in Ht'.
Qed.

(** *** The ratio *)

Lemma chain_empty_b lo l hi : lb = 0 → chain lo l hi → l = [].
Proof. intros Hlb. destruct l as [|[[i j] k] l]; simpl; [done|lia]. Qed.

Lemma ratio_total : is_Some (ratio sm).
Proof.
  unfold ratio.
  destruct get_matching_blocks_chain as (blocks & -> & _). simpl.
  unfold _calculate_ratio. case_decide as Hl; [|done].
  unfold Py.truediv. simpl.
  destruct (Z.eqb_spec (Z.of_nat (la + lb)) 0); [lia|done].
Qed.

(** Against an empty [b] nothing matches: the ratio of a non-empty
    [a] is the float [2.0 * 0 / len(a)]. *)
Lemma ratio_empty_b :
  lb = 0 → la ≠ 0 →
  ratio sm =
    Some (Float (Py.to_float (Py.mul (Float 2.0) (Int 0))
                 / Py.float_of_int (Z.of_nat la))).
Proof.
  intros Hlb Hla. unfold ratio.
  destruct get_matching_blocks_chain as (blocks & -> & Hch). simpl.
  rewrite (chain_empty_b _ _ _ Hlb Hch). simpl.
  unfold _calculate_ratio. rewrite decide_True by lia.
  unfold Py.truediv. simpl.
  destruct (Z.eqb_spec (Z.of_nat (la + lb)) 0); [lia|].
  by rewrite Hlb, Nat.add_0_r.
Qed.

Lemma tiling_le lo ops hi : tiling lo ops hi → lo ≤ hi.
Proof.
  revert lo. induction ops as [|[[[[t i1] i2] j1] j2] ops IH];
    intros lo; simpl; [lia|].
  intros (-> & [? _] & Hops). apply IH in Hops. lia.
Qed.
End matcher.
End DifflibFacts.

(** ** The scoring loop *)

Section scoring.
Context {U : Unicode} {Model : Type}.
Implicit Types (self : PronunciationService Model).
Implicit Types (expected_words spoken_words : list str).

Lemma split_from_nonempty cur text :
  Forall (λ w, w ≠ []) (split_from cur text).
Proof.
  revert cur. induction text as [|c text IH]; intros cur; simpl.
  - destruct cur; by repeat constructor.
  - destruct (isspace c); [|done].
    destruct cur; [done|]. by constructor.
Qed.

Lemma words_of_nonempty text : Forall (λ w, w ≠ []) (words_of text).
Proof. apply split_from_nonempty. Qed.

(** [2.0 * 0 / y] is never [>= 0.6], whatever the float [y]. *)
Lemma zero_ratio_not_close y :
  Py.ge (Float (Py.to_float (Py.mul (Float 2.0) (Int 0)) / y))
        (Float 0.6) = false.
Proof.
  unfold Py.ge, Py.le. simpl.
  replace (2 * Py.float_of_int 0)%float with 0%float
    by (vm_compute; reflexivity).
  rewrite leb_spec, div_spec.
  replace (Prim2SF 0) with (S754_zero false) by (vm_compute; reflexivity).
  replace (Prim2SF 0.6) with (S754_finite false 5404319552844595 (-53))
    by (vm_compute; reflexivity).
  by destruct (Prim2SF y) as [[]|[]| |[] ? ?].
Qed.

Lemma score_equal_spec expected_words spoken_words i1 j1 n lo word_errors :
  Forall (λ w, w ≠ []) spoken_words →
  i1 ≤ lo → lo + n ≤ length expected_words →
  j1 + (lo + n - i1) ≤ length spoken_words →
  ∃ new,
    score_equal expected_words spoken_words i1 j1 (seq lo n) word_errors
    = Some (word_errors ++ new)
    ∧ map position new = seq lo n
    ∧ Forall (entry_ok expected_words) new.
Proof.
  intros Hne Hi1. revert lo word_errors Hi1.
  induction n as [|n IH]; intros lo word_errors Hi1 He Hs; simpl.
  { exists []. by rewrite app_nil_r. }
  destruct (lookup_lt_is_Some_2 expected_words lo) as [w Hw]; [lia|].
  destruct (lookup_lt_is_Some_2 spoken_words (j1 + (lo - i1))) as [s Hsw];
    [lia|].
  rewrite Hw, Hsw. simpl.
  destruct (IH (S lo) (word_errors ++
              [{| word := w; expected := w; spoken := s; position := lo;
                  is_correct := true |}])) as (new & -> & Hpos & Hok);
    [lia..|].
  eexists (_ :: new). rewrite <- app_assoc. split; [done|].
  simpl. rewrite Hpos. split; [done|]. constructor; [|done].
  repeat split; simpl; [done|].
  intros ->. apply list_elem_of_lookup_2 in Hsw.
  by rewrite Forall_forall in Hne; apply Hne in Hsw.
Qed.

Lemma score_delete_spec expected_words n lo word_errors :
  lo + n ≤ length expected_words →
  ∃ new,
    score_delete expected_words (seq lo n) word_errors
    = Some (word_errors ++ new)
    ∧ map position new = seq lo n
    ∧ Forall (entry_ok expected_words) new.
Proof.
  revert lo word_errors.
  induction n as [|n IH]; intros lo word_errors He; simpl.
  { exists []. by rewrite app_nil_r. }
  destruct (lookup_lt_is_Some_2 expected_words lo) as [w Hw]; [lia|].
  rewrite Hw. simpl.
  destruct (IH (S lo) (word_errors ++
              [{| word := w; expected := w; spoken := []; position := lo;
                  is_correct := false |}])) as (new & -> & Hpos & Hok);
    [lia|].
  eexists (_ :: new). rewrite <- app_assoc. split; [done|].
  simpl. rewrite Hpos. split; [done|]. by constructor.
Qed.

Lemma score_replace_spec expected_words spoken_words j1 n lo k
    correct_count word_errors :
  Forall (λ w, w ≠ []) expected_words →
  Forall (λ w, w ≠ []) spoken_words →
  lo + n ≤ length expected_words →
  ∃ correct_count' new,
    score_replace expected_words spoken_words j1
      (imap (λ x, pair (k + x)) (seq lo n)) correct_count word_errors
    = Some (correct_count', word_errors ++ new)
    ∧ map position new = seq lo n
    ∧ Forall (entry_ok expected_words) new.
Proof.
  intros Hne Hns. revert lo k correct_count word_errors.
  induction n as [|n IH]; intros lo k correct_count word_errors He; simpl.
  { exists correct_count, []. by rewrite app_nil_r. }
  rewrite Nat.add_0_r.
  destruct (lookup_lt_is_Some_2 expected_words lo) as [w Hw]; [lia|].
  assert (w ≠ []) as Hw0.
  { rewrite Forall_forall in Hne. eapply Hne, list_elem_of_lookup_2, Hw. }
  assert (∃ spoken_w,
            (if decide (j1 + k < length spoken_words)
             then spoken_words !! (j1 + k) else Some []) = Some spoken_w
            ∧ (spoken_w = [] → length spoken_words ≤ j1 + k)) as
    (spoken_w & -> & Hpad).
  { case_decide as Hlt.
    - destruct (lookup_lt_is_Some_2 spoken_words (j1 + k)) as [s Hs];
        [done|].
      exists s. split; [done|]. intros ->.
      apply list_elem_of_lookup_2 in Hs.
      by rewrite Forall_forall in Hns; apply Hns in Hs.
    - exists []. split; [done|]. lia. }
  simpl. rewrite Hw. simpl.
  destruct (DifflibFacts.ratio_total (Difflib.new w spoken_w)) as [sim Hsim].
  rewrite Hsim. simpl.
  rewrite (imap_ext _ (λ x, pair (S k + x)) (seq (S lo) n))
    by (intros; simpl; f_equal; lia).
  edestruct (IH (S lo) (S k)) as (cc & new & -> & Hpos & Hok); [lia|].
  eexists cc, (_ :: new). rewrite <- app_assoc. split; [done|].
  simpl. rewrite Hpos. split; [done|]. constructor; [|done].
  repeat split; simpl; [done|].
  intros ->.
  rewrite DifflibFacts.ratio_empty_b in Hsim; [|done|by destruct w].
  injection Hsim as <-. apply zero_ratio_not_close.
Qed.

Lemma score_opcodes_spec expected_words spoken_words ops lo
    correct_count word_errors :
  Forall (λ w, w ≠ []) expected_words →
  Forall (λ w, w ≠ []) spoken_words →
  Invariants.tiling (Difflib.new expected_words spoken_words)
    lo ops (length expected_words) →
  ∃ correct_count' new,
    score_opcodes expected_words spoken_words ops correct_count word_errors
    = Some (correct_count', word_errors ++ new)
    ∧ map position new = seq lo (length expected_words - lo)
    ∧ Forall (entry_ok expected_words) new.
Proof.
  intros Hne Hns. revert lo correct_count word_errors.
  induction ops as [|[[[[t i1] i2] j1] j2] ops IH];
    intros lo correct_count word_errors Hops.
  { simpl in Hops. subst lo. exists correct_count, [].
    rewrite app_nil_r, Nat.sub_diag. by repeat split. }
  destruct Hops as (Hlo & [Hi Ht] & Hops). subst lo.
  pose proof (DifflibFacts.tiling_le _ _ _ _ Hops) as Hi2.
  cbn [score_opcodes].
  match goal with
  | |- ∃ _ _, ?step ≫= _ = _ ∧ _ =>
      assert (∃ cc new,
                step = Some (cc, word_errors ++ new)
                ∧ map position new = seq i1 (i2 - i1)
                ∧ Forall (entry_ok expected_words) new)
        as (cc & new1 & Hstep & Hpos1 & Hok1)
  end.
  { destruct t; simpl in Ht.
    - by apply (score_replace_spec _ _ j1 (i2 - i1) i1 0); [..|lia].
    - destruct (score_delete_spec expected_words (i2 - i1) i1 word_errors)
        as (new & -> & ? & ?); [lia|]. by eexists _, new.
    - subst i2. exists correct_count, [].
      rewrite app_nil_r, Nat.sub_diag. by repeat split.
    - destruct (score_equal_spec expected_words spoken_words i1 j1
                  (i2 - i1) i1 word_errors) as (new & -> & ? & ?);
        [done|lia|lia|lia|]. by eexists _, new. }
  rewrite Hstep. cbn [mbind option_bind].
  destruct (IH i2 cc (word_errors ++ new1) Hops)
    as (cc' & new2 & -> & Hpos2 & Hok2).
  exists cc', (new1 ++ new2). rewrite <- app_assoc. split; [done|].
  split; [|by apply Forall_app].
  rewrite map_app, Hpos1, Hpos2.
  replace (length expected_words - i1)
    with ((i2 - i1) + (length expected_words - i2)) by lia.
  rewrite seq_app. do 2 f_equal. lia.
Qed.

(** [max(total, 1)] is never zero. *)
Lemma max_total_nonzero (total : nat) :
  Py.is_zero (Py.max (Int (Z.of_nat total)) (Int 1)) = false.
Proof.
  unfold Py.max, Py.gt, Py.lt.
  destruct (Z.ltb_spec (Z.of_nat total) 1); simpl;
    [done|]. apply Z.eqb_neq. lia.
Qed.

Lemma _fluency_score_total self spoken_words expected_words :
  is_Some (_fluency_score self spoken_words expected_words).
Proof.
  unfold _fluency_score. destruct expected_words as [|w ws]; [done|].
  unfold Py.truediv.
  replace (Py.is_zero (Int (Z.of_nat (length (w :: ws))))) with false
    by (symmetry; apply Z.eqb_neq; simpl; lia).
  cbn [mbind option_bind]. by repeat case_match.
Qed.

(** [_score] returns for every pair of texts; its reports cover the
    expected words in order, one each. *)
Lemma _score_spec self spoken_t expected_t :
  ∃ r, _score self spoken_t expected_t = Some r
       ∧ map position (word_errors r) = seq 0 (length (words_of expected_t))
       ∧ Forall (entry_ok (words_of expected_t)) (word_errors r)
       ∧ spoken_text r = spoken_t ∧ expected_text r = expected_t.
Proof.
  unfold _score. fold (words_of spoken_t) (words_of expected_t).
  destruct (DifflibFacts.get_opcodes_tiling
              (Difflib.new (words_of expected_t) (words_of spoken_t)))
    as (ops & -> & Hops). cbn [mbind option_bind].
  destruct (score_opcodes_spec (words_of expected_t) (words_of spoken_t)
              ops 0 (Int 0) [])
    as (cc & new & -> & Hpos & Hok);
    [apply words_of_nonempty..|done|]. cbn [mbind option_bind].
  unfold Py.truediv at 1. rewrite max_total_nonzero.
  cbn [mbind option_bind].
  destruct (_fluency_score_total self (words_of spoken_t)
              (words_of expected_t)) as [fl ->].
  cbn [mbind option_bind]. eexists. split; [done|]. simpl.
  by rewrite Nat.sub_0_r in Hpos.
Qed.

(** The feedback is looked up on the overall score as computed; the
    score reported is that value clamped and rounded. *)
Lemma _score_feedback self spoken_t expected_t :
  ∃ r x, _score self spoken_t expected_t = Some r
         ∧ feedback r = _feedback self (Float x)
         ∧ overall_score r = reported (Float x).
Proof.
  destruct (_score_spec self spoken_t expected_t) as (r & Hr & _).
  exists r. rewrite Hr. unfold _score in Hr.
  repeat match type of Hr with
         | (?m ≫= _) = Some _ =>
             destruct m as [?|] eqn:?; [cbn [mbind option_bind] in Hr|done]
         | (let '(_, _) := ?p in _) = Some _ => destruct p
         end.
  injection Hr as <-. simpl.
  match goal with
  | |- context [Py.add ?a ?b] =>
      assert (∃ x, Py.add a b = Float x) as [x ->]
  end.
  { unfold Py.add, Py.mul. repeat case_match; eauto; congruence. }
  by exists x.
Qed.
End scoring.

(** ** The database on the Basic Latin block is admissible *)

Lemma basic_latin_self : basic_latin BasicLatin.unicode.
Proof. by split. Qed.

(** On ASCII texts [_score] does not depend on the rest of the database. *)
Lemma _score_ascii {U : Unicode} {Model} (self : PronunciationService Model)
    spoken_t expected_t :
  basic_latin U → ascii_text spoken_t → ascii_text expected_t →
  @_score U Model self spoken_t expected_t
  = @_score BasicLatin.unicode Model self spoken_t expected_t.
Proof.
  intros HU Hs He. unfold _score.
  fold (@words_of U spoken_t) (@words_of U expected_t).
  fold (@words_of BasicLatin.unicode spoken_t)
       (@words_of BasicLatin.unicode expected_t).
  by rewrite (words_of_ascii HU _ Hs), (words_of_ascii HU _ He).
Qed.

(** An explicit text is ASCII by inspection. *)
Ltac ascii_by_evaluation := apply (bool_decide_unpack _); vm_compute; exact I.

(** Two floats told apart by evaluation. *)
Lemma Float_neq (x y : float) :
  (x =? y)%float = false → (y =? y)%float = true → Float x ≠ Float y.
Proof. intros Hxy Hyy [= E]. rewrite E in Hxy. congruence. Qed.

(** ** Rounding a score never lowers its feedback tier *)

Section rounding.
#[local] Open Scope Z_scope.

Lemma digits2_pos_bounds (m : positive) :
  2 ^ (Z.pos (digits2_pos m) - 1) ≤ Z.pos m < 2 ^ Z.pos (digits2_pos m).
Proof.
  induction m as [m IH|m IH|]; simpl digits2_pos;
    rewrite ?Pos2Z.inj_succ; [| |by compute].
  all: replace (Z.succ (Z.pos (digits2_pos m)) - 1)
         with (Z.succ (Z.pos (digits2_pos m) - 1)) by lia.
  all: rewrite !Z.pow_succ_r by lia; lia.
Qed.

(** The mantissa of a binary64 value with exponent [-46] or [-47] has 53
    bits. *)
Lemma normal_mantissa (m : positive) (e : Z) :
  bounded prec emax m e = true → -1074 < e →
  2 ^ 52 ≤ Z.pos m < 2 ^ 53.
Proof.
  unfold bounded, canonical_mantissa, fexp, SpecFloat.emin, prec, emax.
  intros [Hc _]%andb_prop He. apply Z.eqb_eq in Hc.
  pose proof (digits2_pos_bounds m) as Hm.
  replace (Z.pos (digits2_pos m)) with 53 in Hm by lia. exact Hm.
Qed.

(** The tenths of a value between [lo] and [hi] tenths lie between them. *)
Lemma round_half_even_between (n d lo hi : Z) :
  0 < d → lo * d ≤ n ≤ hi * d →
  lo ≤ Py.round_half_even n d ≤ hi.
Proof.
  intros Hd Hn. unfold Py.round_half_even.
  pose proof (Z.div_mod n d ltac:(lia)) as Hdiv.
  pose proof (Z.mod_pos_bound n d Hd) as Hmod.
  assert (lo ≤ n / d) by (apply Z.div_le_lower_bound; lia).
  assert (n / d ≤ hi) by (apply Z.div_le_upper_bound; lia).
  assert (n / d = hi → n mod d = 0) by nia.
  destruct (Z.compare_spec (2 * (n mod d)) d); [|lia|];
    try destruct (Z.even (n / d)); nia.
Qed.

(** Between [T] and 100, every decimal [t / 10] converts to a float that
    is still at least [T]: checked on each of the decimals. *)
Lemma of_tenths_ge (T : Z) (t : positive) :
  T ∈ [40; 60; 75; 90] → 10 * T ≤ Z.pos t ≤ 1000 →
  (Py.float_of_int T <=? Py.of_tenths false t)%float = true.
Proof.
  intros HT Ht.
  assert (Forall (λ T,
            Forall (λ t, (Py.float_of_int T
                          <=? Py.of_tenths false (Z.to_pos t))%float = true)
                   (seqZ (10 * T) (1001 - 10 * T))) [40; 60; 75; 90]) as Hall
    by (apply (bool_decide_unpack _); vm_compute; exact I).
  rewrite Forall_forall in Hall. specialize (Hall T HT).
  rewrite Forall_forall in Hall. specialize (Hall (Z.pos t)).
  apply Hall, elem_of_seqZ. lia.
Qed.

Lemma reported_keeps_tier (x : float) (T : Z) :
  T ∈ [40; 60; 75; 90] →
  Py.ge (Float x) (Int T) = true → Py.ge (reported (Float x)) (Int T) = true.
Proof.
  intros HT Hge.
  unfold Py.ge, Py.le in Hge; cbn [Py.to_float] in Hge.
  rewrite leb_spec in Hge.
  pose proof (Prim2SF_valid x) as Hv.
  unfold reported, Py.max, Py.min, Py.gt, Py.lt. cbn [Py.to_float].
  rewrite !ltb_spec.
  replace (Prim2SF (Py.float_of_int 0)) with (S754_zero false)
    by (vm_compute; reflexivity).
  replace (Prim2SF (Py.float_of_int 100))
    with (S754_finite false 7036874417766400 (-46))
    by (vm_compute; reflexivity).
  assert (∃ mT eT,
            Prim2SF (Py.float_of_int T) = S754_finite false mT eT
            ∧ 40 ≤ T ≤ 90
            ∧ ((eT = -47 ∧ Z.pos mT = T * 2 ^ 47 ∧ T ≤ 60)
               ∨ (eT = -46 ∧ Z.pos mT = T * 2 ^ 46 ∧ T ≤ 90)))
    as (mT & eT & ET & HT' & HmT).
  { set_unfold in HT. destruct HT as [->|[->|[->|[->|[]]]]];
      eexists _, _; (split; [vm_compute; reflexivity|]); (split; [lia|]);
      first [left; split_and!; [reflexivity..|lia]
            |right; split_and!; [reflexivity..|lia]]. }
  rewrite ET in Hge. clear ET.
  destruct (Prim2SF x) as [s|[]| |[] m e] eqn:EX; try done; cbn [SFltb SFcompare].
  { (* plus infinity: clamped to the int 100 *)
    cbn [Py.to_float]. rewrite EX. cbn. apply Z.leb_le. lia. }
  cbn [Py.to_float]. rewrite EX.
  destruct (SFltb _ (S754_finite false m e)) eqn:E100.
  { cbn. apply Z.leb_le. lia. }
  unfold Py.round1, Py.round1_float. rewrite EX.
  unfold Py.ge, Py.le. cbn [Py.to_float].
  (* the exponent of [x] is -47 or -46, which bounds its mantissa *)
  unfold SFleb, SFltb in *. cbn [SFcompare] in *.
  assert (-1074 < e → 2 ^ 52 ≤ Z.pos m < 2 ^ 53) as Hnormal
    by (by apply normal_mantissa).
  assert (e = -46 ∨ e = -47) as He.
  { destruct (Z.compare_spec (-46) e), (Z.compare_spec eT e); try done; lia. }
  assert (10 * T ≤ Py.tenths m e ≤ 1000) as Ht.
  { change (2 ^ 47) with 140737488355328 in HmT.
    change (2 ^ 46) with 70368744177664 in HmT.
    change (2 ^ 52) with 4503599627370496 in Hnormal.
    change (2 ^ 53) with 9007199254740992 in Hnormal.
    change (Pos.compare_cont Eq mT m) with (Z.pos mT ?= Z.pos m) in Hge.
    change (Pos.compare_cont Eq 7036874417766400 m)
      with (7036874417766400 ?= Z.pos m) in E100.
    assert (10 * T * 2 ^ (- e) ≤ 10 * Z.pos m ≤ 1000 * 2 ^ (- e)) as Hm.
    { clear Hv EX. revert Hge E100 HmT Hnormal.
      generalize (Z.pos m) (Z.pos mT). clear m mT.
      intros m mT Hge E100 HmT Hnormal.
      destruct He as [-> | ->];
        [change (2 ^ (- (-46))) with 70368744177664
        |change (2 ^ (- (-47))) with 140737488355328];
        destruct (Z.compare_spec eT (-46)), (Z.compare_spec eT (-47)),
          (Z.compare_spec mT m), (Z.compare_spec 7036874417766400 m);
        cbn in Hge, E100; try discriminate; lia. }
    unfold Py.tenths. destruct He as [-> | ->]; cbn [Z.leb Z.compare];
      by apply round_half_even_between. }
  destruct (Py.tenths m e) as [|t|t]; [lia| |lia].
  by apply of_tenths_ge.
Qed.

(** Looking the feedback up after clamping and rounding gives the same
    message, unless rounding carried the score over a threshold. *)
Lemma feedback_reported {Model} (self : PronunciationService Model)
    (x : float) :
  _feedback self (reported (Float x)) = _feedback self (Float x)
  ∨ ∃ T, T ∈ [40; 60; 75; 90]
         ∧ Py.ge (Float x) (Int T) = false
         ∧ Py.ge (reported (Float x)) (Int T) = true.
Proof.
  assert (∀ T, T ∈ [40; 60; 75; 90] →
            Py.ge (reported (Float x)) (Int T) = Py.ge (Float x) (Int T)
            ∨ (Py.ge (Float x) (Int T) = false
               ∧ Py.ge (reported (Float x)) (Int T) = true)) as Htier.
  { intros T HT. pose proof (reported_keeps_tier x T HT) as Hkeep.
    destruct (Py.ge (Float x) (Int T)), (Py.ge (reported _) (Int T)); auto. }
  destruct (Htier 90) as [E90|?];
    [by repeat constructor| |right; exists 90; by split; [repeat constructor|]].
  destruct (Htier 75) as [E75|?];
    [by repeat constructor| |right; exists 75; by split; [repeat constructor|]].
  destruct (Htier 60) as [E60|?];
    [by repeat constructor| |right; exists 60; by split; [repeat constructor|]].
  destruct (Htier 40) as [E40|?];
    [by repeat constructor| |right; exists 40; by split; [repeat constructor|]].
  left. unfold _feedback. by rewrite E90, E75, E60, E40.
Qed.
End rounding.

(** ** The fluency bands on exact word counts *)

(** For up to 120 expected and 240 spoken words (a learner's utterance has
    a few dozen) the bands are those of the exact quotient: rounding in
    the division never moves a ratio across 0.8, 1.2, 0.5 or 1.5.  Checked
    on every pair of counts. *)
Lemma fluency_bands_exact {U : Unicode} {Model}
    (self : PronunciationService Model)
    (spoken_words expected_words : list str) :
  0 < length expected_words ≤ 120 → length spoken_words ≤ 240 →
  _fluency_score self spoken_words expected_words
  = Some (fluency_band_exact (length spoken_words) (length expected_words)).
Proof.
  intros He Hs.
  assert (Forall (λ e, Forall (λ s, bands_agree s e = true) (seq 0 241))
                 (seq 1 120)) as Hall
    by (apply (bool_decide_unpack _); vm_compute; exact I).
  rewrite Forall_forall in Hall.
  specialize (Hall (length expected_words) ltac:(apply elem_of_seq; lia)).
  rewrite Forall_forall in Hall.
  specialize (Hall (length spoken_words) ltac:(apply elem_of_seq; lia)).
  apply bool_decide_eq_true in Hall as [H1 H2].
  unfold _fluency_score, fluency_band_exact.
  destruct expected_words as [|w ws]; [simpl in He; lia|].
  unfold Py.truediv.
  replace (Py.is_zero (Int (Z.of_nat (length (w :: ws))))) with false
    by (symmetry; apply Z.eqb_neq; simpl; lia).
  cbn [mbind option_bind Py.to_float].
  destruct (_ && _), (_ && _); simpl in H1, H2;
    rewrite ?bool_decide_eq_true_2, ?bool_decide_eq_false_2 by tauto;
    try done;
    rewrite ?bool_decide_eq_true_2, ?bool_decide_eq_false_2 by tauto;
    done.
Qed.

(** * The properties of the specification, C1 to C10 *)

(** C1 (as amended). For [expected_text = ""] and
    [spoken_text = "anything"] the result has no word report, fluency
    100.0, accuracy 0.0, and overall score 30.0: the fluency of an empty
    expected phrase still weighs 0.3 in the overall score. *)
Theorem empty_expected_text {U : Unicode} {Model}
    (self : PronunciationService Model) :
  basic_latin U →
  ∃ r, _score self (str_of "anything") (str_of "") = Some r
       ∧ word_errors r = []
       ∧ fluency_score r = Float 100
       ∧ accuracy_score r = Float 0
       ∧ overall_score r = Float 30.
Proof.
  intros HU. rewrite (_score_ascii self _ _ HU); [|ascii_by_evaluation..].
  eexists. split; [vm_compute; reflexivity|]. by repeat split.
Qed.

(** The property above at the database of the Basic Latin block. *)
Lemma empty_expected_text_witness :
  ∃ r, @_score BasicLatin.unicode _ fallback_service
         (str_of "anything") (str_of "") = Some r
       ∧ word_errors r = []
       ∧ fluency_score r = Float 100
       ∧ accuracy_score r = Float 0
       ∧ overall_score r = Float 30.
Proof. exact (empty_expected_text fallback_service basic_latin_self). Defined.

(** C1 as stated fails: the overall score of that evaluation is not 0.0. *)
Lemma empty_expected_text_overall_not_zero :
  ¬ ∃ r, @_score BasicLatin.unicode _ fallback_service
           (str_of "anything") (str_of "") = Some r
         ∧ word_errors r = []
         ∧ fluency_score r = Float 100
         ∧ accuracy_score r = Float 0
         ∧ overall_score r = Float 0.
Proof.
  intros (r & Hr & _ & _ & _ & Ho).
  vm_compute in Hr. injection Hr as <-. simpl in Ho.
  by eapply Float_neq in Ho.
Qed.

(** C2 (the code departs from it). For [expected = "x cart car"] and
    [spoken = "y car"] the alignment is a [replace] of expected words 0-1
    by spoken word 0, then an [equal] of expected word 2 and spoken word 1.
    The trailing expected word "cart" of the [replace] is paired with the
    spoken word "car" of the [equal] opcode, outside the opcode's own
    spoken range, and is counted correct with credit 6/7; the accuracy
    comes out as 61.9. *)
Theorem replace_pairs_beyond_its_spoken_range :
  let U := BasicLatin.unicode in
  Difflib.get_opcodes
    (Difflib.new (words_of (str_of "x cart car")) (words_of (str_of "y car")))
  = Some [(Difflib.Replace, 0, 2, 0, 1); (Difflib.Equal, 2, 3, 1, 2)]
  ∧ ∃ r, _score fallback_service (str_of "y car") (str_of "x cart car")
         = Some r
         ∧ map verdict (word_errors r)
           = [(str_of "x", str_of "y", false);
              (str_of "cart", str_of "car", true);
              (str_of "car", str_of "car", true)]
         ∧ accuracy_score r = Float 61.9.
Proof.
  split; [vm_compute; reflexivity|].
  eexists. split; [vm_compute; reflexivity|]. by split.
Qed.

(** C3. For every pair of texts the result has one report per word of the
    normalised expected text, and the positions of the reports are
    [0, 1, ..., N-1] in this order, whatever the spoken text adds. *)
Theorem word_errors_cover_expected {U : Unicode} {Model}
    (self : PronunciationService Model) (spoken_t expected_t : str) :
  ∃ r, _score self spoken_t expected_t = Some r
       ∧ length (word_errors r) = length (words_of expected_t)
       ∧ map position (word_errors r)
         = seq 0 (length (words_of expected_t)).
Proof.
  destruct (_score_spec self spoken_t expected_t) as (r & Hr & Hpos & _).
  exists r. repeat split; [done| |done].
  by rewrite <- (length_map position), Hpos, length_seq.
Qed.

(** C5. Scoring returns a result for every pair of texts: no index is out
    of range, no division is by zero, and the work list of the matcher
    runs to its end.  The placeholder transcript is a text like any other. *)
Theorem _score_total {U : Unicode} {Model}
    (self : PronunciationService Model) (spoken_t expected_t : str) :
  is_Some (_score self spoken_t expected_t)
  ∧ is_Some (_score self placeholder expected_t)
  ∧ is_Some (_score self [] []).
Proof.
  repeat split.
  - destruct (_score_spec self spoken_t expected_t) as (r & -> & _). by eexists.
  - destruct (_score_spec self placeholder expected_t) as (r & -> & _).
    by eexists.
  - destruct (_score_spec self [] []) as (r & -> & _). by eexists.
Qed.

(** C6. For [expected = "hello"] and [spoken = "oh hello there"] the
    result has exactly one report, for "hello" and correct; accuracy
    100.0, fluency 40.0, overall 82.0. *)
Theorem insertion_case {U : Unicode} {Model}
    (self : PronunciationService Model) :
  basic_latin U →
  ∃ r, _score self (str_of "oh hello there") (str_of "hello") = Some r
       ∧ map verdict (word_errors r)
         = [(str_of "hello", str_of "hello", true)]
       ∧ accuracy_score r = Float 100
       ∧ fluency_score r = Float 40
       ∧ overall_score r = Float 82.
Proof.
  intros HU. rewrite (_score_ascii self _ _ HU); [|ascii_by_evaluation..].
  eexists. split; [vm_compute; reflexivity|]. by repeat split.
Qed.

(** The property above at the database of the Basic Latin block. *)
Lemma insertion_case_witness :
  ∃ r, @_score BasicLatin.unicode _ fallback_service
         (str_of "oh hello there") (str_of "hello") = Some r
       ∧ map verdict (word_errors r)
         = [(str_of "hello", str_of "hello", true)]
       ∧ accuracy_score r = Float 100
       ∧ fluency_score r = Float 40
       ∧ overall_score r = Float 82.
Proof. exact (insertion_case fallback_service basic_latin_self). Defined.

(** C7. With no expected word the fluency is 100; otherwise it is the band
    of [len(spoken_words) / len(expected_words)]: 100 in [0.8, 1.2], else
    70 in [0.5, 1.5], else 40, bounds included.  For up to 120 expected and
    240 spoken words the band is also that of the exact quotient. *)
Theorem fluency_bands {U : Unicode} {Model}
    (self : PronunciationService Model)
    (spoken_words expected_words : list str) :
  _fluency_score self spoken_words expected_words
  = Some (if expected_words is [] then Float 100
          else fluency_band
                 (Float (Py.float_of_int (Z.of_nat (length spoken_words))
                         / Py.float_of_int
                             (Z.of_nat (length expected_words)))))
  ∧ (0 < length expected_words ≤ 120 → length spoken_words ≤ 240 →
     _fluency_score self spoken_words expected_words
     = Some (fluency_band_exact (length spoken_words)
                                (length expected_words))).
Proof.
  split; [|apply fluency_bands_exact].
  unfold _fluency_score, fluency_band.
  destruct expected_words as [|w ws]; [done|].
  unfold Py.truediv.
  replace (Py.is_zero (Int (Z.of_nat (length (w :: ws))))) with false
    by (symmetry; apply Z.eqb_neq; simpl; lia).
  cbn [mbind option_bind Py.to_float]. unfold Py.le. cbn [Py.to_float].
  generalize (Py.float_of_int (Z.of_nat (length spoken_words))
              / Py.float_of_int (Z.of_nat (length (w :: ws))))%float.
  intros q.
  destruct (PrimFloat.leb _ q), (PrimFloat.leb q _),
    (PrimFloat.leb _ q), (PrimFloat.leb q _); simpl;
    rewrite ?bool_decide_eq_true_2, ?bool_decide_eq_false_2 by tauto;
    try done;
    rewrite ?bool_decide_eq_true_2, ?bool_decide_eq_false_2 by tauto;
    done.
Qed.

(** C8. Scores of exactly 90, 75, 60 and 40 get the first four messages,
    39.9 gets the fifth, and the five messages differ from one another. *)
Theorem feedback_tier_boundaries {Model} (self : PronunciationService Model) :
  _feedback self (Float 90)
  = "Excellent pronunciation! You sound very natural."%string
  ∧ _feedback self (Float 75)
    = "Great job! Just a few words to polish – keep practising!"%string
  ∧ _feedback self (Float 60)
    = "Good effort! Try listening to the slow version and repeating."%string
  ∧ _feedback self (Float 40)
    = "You're making progress! Focus on the highlighted words and try again."%string
  ∧ _feedback self (Float 39.9)
    = "Keep going! Every attempt makes you better. Try saying it slowly first."%string
  ∧ NoDup (map (_feedback self)
             [Float 90; Float 75; Float 60; Float 40; Float 39.9]).
Proof.
  split_and!; try (vm_compute; reflexivity).
  apply (bool_decide_unpack _). vm_compute. exact I.
Qed.


(** C10. A report whose spoken field is empty is never correct. *)
Theorem empty_spoken_not_correct {U : Unicode} {Model}
    (self : PronunciationService Model) (spoken_t expected_t : str) :
  ∃ r, _score self spoken_t expected_t = Some r
       ∧ Forall (λ w, spoken w = [] → is_correct w = false) (word_errors r).
Proof.
  destruct (_score_spec self spoken_t expected_t) as (r & Hr & _ & Hok & _).
  exists r. split; [done|].
  eapply Forall_impl; [exact Hok|]. by intros w (_ & _ & ?).
Qed.

(** C4 (as amended). The feedback of the result is the five-tier lookup on
    the overall score as computed, before clamping and rounding: on
    [accuracy * 0.7 + fluency * 0.3], where [accuracy] is
    [correct_count / max(total, 1) * 100] for the credit the loop over the
    opcodes ends with and [fluency] is what [_fluency_score] returns.  The
    lookup on the reported overall score gives the same message, except
    when rounding carries the score from below one of the thresholds 40,
    60, 75, 90 to that threshold or above. *)
Theorem feedback_before_rounding {U : Unicode} {Model}
    (self : PronunciationService Model) (spoken_t expected_t : str) :
  ∃ r opcodes correct_count reports quotient fluency x,
    _score self spoken_t expected_t = Some r
    ∧ Difflib.get_opcodes
        (Difflib.new (words_of expected_t) (words_of spoken_t))
      = Some opcodes
    ∧ score_opcodes (words_of expected_t) (words_of spoken_t) opcodes
        (Int 0) []
      = Some (correct_count, reports)
    ∧ Py.truediv correct_count
        (Py.max (Int (Z.of_nat (length (words_of expected_t)))) (Int 1))
      = Some quotient
    ∧ _fluency_score self (words_of spoken_t) (words_of expected_t)
      = Some fluency
    ∧ Py.add (Py.mul (Py.mul quotient (Int 100)) (Float 0.7))
             (Py.mul fluency (Float 0.3))
      = Float x
    ∧ feedback r = _feedback self (Float x)
    ∧ overall_score r = reported (Float x)
    ∧ (_feedback self (overall_score r) = feedback r
       ∨ ∃ T, T ∈ [40; 60; 75; 90]%Z
              ∧ Py.ge (Float x) (Int T) = false
              ∧ Py.ge (overall_score r) (Int T) = true).
Proof.
  destruct (_score_spec self spoken_t expected_t) as (r & Hr & _).
  exists r. rewrite Hr. unfold _score in Hr.
  fold (words_of spoken_t) (words_of expected_t) in Hr.
  destruct (Difflib.get_opcodes _) as [opcodes|] eqn:Hops; [|done].
  cbn [mbind option_bind] in Hr.
  destruct (score_opcodes _ _ _ _ _) as [[correct_count reports]|] eqn:Hrun;
    [|done].
  cbn [mbind option_bind] in Hr.
  destruct (Py.truediv _ _) as [quotient|] eqn:Hq; [|done].
  cbn [mbind option_bind] in Hr.
  destruct (_fluency_score _ _ _) as [fluency|] eqn:Hfl; [|done].
  cbn [mbind option_bind] in Hr. injection Hr as <-.
  assert (∃ x, Py.add (Py.mul (Py.mul quotient (Int 100)) (Float 0.7))
                      (Py.mul fluency (Float 0.3)) = Float x) as [x Hx].
  { unfold Py.add, Py.mul. repeat case_match; eauto; congruence. }
  exists opcodes, correct_count, reports, quotient, fluency, x.
  cbn [feedback overall_score]. rewrite Hx.
  fold (reported (Float x)).
  split_and!; try done.
  apply feedback_reported.
Qed.

(** C4 as stated fails: for [expected = "a b c abcdefgh"] and
    [spoken = "a b c abcdefghi x"] the overall score is 89.97...; its
    feedback is the second message, while the rounded score 90.0 looks up
    the first. *)
Lemma feedback_differs_after_rounding :
  ∃ r x, @_score BasicLatin.unicode _ fallback_service
           (str_of "a b c abcdefghi x") (str_of "a b c abcdefgh") = Some r
         ∧ x = 89.97058823529412%float
         ∧ feedback r = _feedback fallback_service (Float x)
         ∧ overall_score r = Py.round1 (Float x)
         ∧ _feedback fallback_service (Float x)
           ≠ _feedback fallback_service (Py.round1 (Float x)).
Proof.
  eexists _, _. split_and!; [vm_compute; reflexivity|reflexivity|..].
  - vm_compute. reflexivity.
  - vm_compute. reflexivity.
  - vm_compute. discriminate.
Qed.

(** * Further properties *)

(** ** Binary64 arithmetic on counts and scores *)

Section floats.
#[local] Open Scope Z_scope.

Lemma shr_1_nonneg mrs : 0 ≤ shr_m mrs → 0 ≤ shr_m (shr_1 mrs).
Proof. destruct mrs as [[|[p|p|]|p] r s]; simpl; lia. Qed.

Lemma iter_pos_shr_1_nonneg p mrs :
  0 ≤ shr_m mrs → 0 ≤ shr_m (SpecFloat.iter_pos shr_1 p mrs).
Proof.
  revert mrs. induction p as [p IH|p IH|]; intros mrs Hm; simpl.
  - by apply IH, IH, shr_1_nonneg.
  - by apply IH, IH.
  - by apply shr_1_nonneg.
Qed.

Lemma shr_fexp_nonneg m e l :
  0 ≤ m → 0 ≤ shr_m (shr_fexp prec emax m e l).1.
Proof.
  intros Hm. unfold shr_fexp, shr.
  assert (0 ≤ shr_m (shr_record_of_loc m l)) by (by destruct l as [|[]]).
  destruct (_ - e); simpl; [done| |done]. by apply iter_pos_shr_1_nonneg.
Qed.

Lemma round_nearest_even_nonneg m l : 0 ≤ m → 0 ≤ round_nearest_even m l.
Proof. intros. destruct l as [|[]]; simpl; try destruct (Z.even m); lia. Qed.

(** Rounding a mantissa that is not negative gives a number that is not
    negative. *)
Lemma binary_round_aux_nonneg m e l :
  0 ≤ m → nonneg_sf (binary_round_aux prec emax false m e l).
Proof.
  intros Hm. unfold binary_round_aux.
  pose proof (shr_fexp_nonneg m e l Hm) as H1.
  destruct (shr_fexp prec emax m e l) as [mrs' e']. simpl in H1.
  pose proof (shr_fexp_nonneg _ e' loc_Exact
                (round_nearest_even_nonneg _ (loc_of_shr_record mrs') H1))
    as H2.
  destruct (shr_fexp prec emax _ e' loc_Exact) as [mrs'' e'']. simpl in H2.
  destruct (shr_m mrs''); [done| |lia]. by destruct (_ <=? _).
Qed.

Lemma binary_round_nonneg m e :
  nonneg_sf (binary_round prec emax false m e).
Proof.
  unfold binary_round. destruct (shl_align m e _).
  by apply binary_round_aux_nonneg.
Qed.

Lemma SFadd_nonneg x y :
  nonneg_sf x → nonneg_sf y → nonneg_sf (SFadd prec emax x y).
Proof.
  destruct x as [?|[]| |[] mx ex], y as [?|[]| |[] my ey]; try done.
  - intros _ _. simpl. by destruct s, s0.
  - intros _ _. unfold SFadd, cond_Zopp, binary_normalize.
    destruct (_ + _) eqn:E; [lia| |lia].
    apply binary_round_nonneg.
Qed.

Lemma SFmul_nonneg x my ey :
  nonneg_sf x → nonneg_sf (SFmul prec emax x (S754_finite false my ey)).
Proof.
  destruct x as [[]|[]| |[] mx ex]; try done.
  intros _. by apply binary_round_aux_nonneg.
Qed.

Lemma div_eucl_eq a b : Z.div_eucl a b = (a / b, a mod b).
Proof. unfold Z.div, Z.modulo. by destruct (Z.div_eucl a b). Qed.

Lemma SFdiv_nonneg x my ey :
  nonneg_sf x → nonneg_sf (SFdiv prec emax x (S754_finite false my ey)).
Proof.
  destruct x as [[]|[]| |[] mx ex]; try done.
  intros _. unfold SFdiv, SFdiv_core_binary.
  rewrite div_eucl_eq. cbn [xorb].
  apply binary_round_aux_nonneg.
  apply Z.div_pos; [|lia].
  destruct (_ - _ - _); [lia| |lia]. apply Z.shiftl_nonneg. lia.
Qed.

Lemma add_nonneg (x y : float) :
  nonneg_float x → nonneg_float y → nonneg_float (x + y).
Proof. unfold nonneg_float. rewrite add_spec. apply SFadd_nonneg. Qed.

Lemma mul_nonneg (x y : float) :
  positive_finite y = true → nonneg_float x → nonneg_float (x * y).
Proof.
  unfold nonneg_float, positive_finite. rewrite mul_spec.
  destruct (Prim2SF y) as [?|?| |[] my ey]; try done. intros _.
  apply SFmul_nonneg.
Qed.

Lemma div_nonneg (x y : float) :
  positive_finite y = true → nonneg_float x → nonneg_float (x / y).
Proof.
  unfold nonneg_float, positive_finite. rewrite div_spec.
  destruct (Prim2SF y) as [?|?| |[] my ey]; try done. intros _.
  apply SFdiv_nonneg.
Qed.

Lemma positive_finite_nonneg x : positive_finite x = true → nonneg_float x.
Proof.
  unfold nonneg_float, positive_finite.
  by destruct (Prim2SF x) as [?|?| |[] ? ?].
Qed.

(** A value that passes the similarity test is a number, not negative. *)
Lemma close_nonneg (f : float) :
  Py.ge (Float f) (Float 0.6) = true → nonneg_float f.
Proof.
  unfold Py.ge, Py.le, nonneg_float. cbn [Py.to_float]. rewrite leb_spec.
  replace (Prim2SF 0.6) with (S754_finite false 5404319552844595 (-53))
    by (vm_compute; reflexivity).
  by destruct (Prim2SF f) as [[]|[]| |[] ? ?].
Qed.

Lemma digits2_pos_iter_xO p k :
  Z.pos (digits2_pos (Pos.iter xO p k)) = Z.pos (digits2_pos p) + Z.pos k.
Proof.
  induction k as [|k IH] using Pos.peano_ind.
  - simpl. lia.
  - rewrite Pos.iter_succ. simpl digits2_pos. lia.
Qed.

Lemma iter_xO_value p k : Z.pos (Pos.iter xO p k) = Z.pos p * 2 ^ Z.pos k.
Proof.
  induction k as [|k IH] using Pos.peano_ind.
  - simpl. lia.
  - rewrite Pos.iter_succ, Pos2Z.inj_succ, Z.pow_succ_r by lia.
    rewrite Pos2Z.inj_xO, IH. lia.
Qed.

Lemma digits2_pos_le (p : positive) (d : Z) :
  0 ≤ d → Z.pos p < 2 ^ d → Z.pos (digits2_pos p) ≤ d.
Proof.
  intros Hd Hp. pose proof (digits2_pos_bounds p) as Hb.
  destruct (Z.le_gt_cases (Z.pos (digits2_pos p)) d) as [|Hgt]; [done|].
  assert (2 ^ d ≤ 2 ^ (Z.pos (digits2_pos p) - 1))
    by (apply Z.pow_le_mono_r; lia). lia.
Qed.

(** A mantissa of 53 bits with an exponent of the normal range is left
    as it is. *)
Lemma binary_round_aux_exact s m e :
  Z.pos (digits2_pos m) = 53 → -1074 ≤ e ≤ 971 →
  binary_round_aux prec emax s (Z.pos m) e loc_Exact = S754_finite s m e.
Proof.
  intros Hd He.
  assert (shr_fexp prec emax (Z.pos m) e loc_Exact
          = ({| shr_m := Z.pos m; shr_r := false; shr_s := false |}, e)) as E.
  { unfold shr_fexp, Zdigits2. rewrite Hd.
    unfold fexp, SpecFloat.emin, prec, emax.
    replace (Z.max (53 + e - 53) (3 - 1024 - 53) - e) with 0 by lia. done. }
  unfold binary_round_aux. rewrite E.
  cbn [shr_m loc_of_shr_record round_nearest_even].
  rewrite E. cbn [shr_m]. unfold prec, emax.
  destruct (Z.leb_spec e (1024 - 53)); [done|lia].
Qed.

(** Below [2^53] the conversion of a positive int is exact: the result is
    the normal number of the same value. *)
Lemma float_of_int_pos p :
  Z.pos p < 2 ^ 53 →
  ∃ m, Prim2SF (Py.float_of_int (Z.pos p))
       = S754_finite false m (Z.pos (digits2_pos p) - 53)
       ∧ Z.pos (digits2_pos m) = 53
       ∧ Z.pos m = Z.pos p * 2 ^ (53 - Z.pos (digits2_pos p)).
Proof.
  intros Hp. pose proof (digits2_pos_le p 53 ltac:(lia) Hp) as Hd53.
  assert (∃ m, binary_normalize prec emax (Z.pos p) 0 false
               = S754_finite false m (Z.pos (digits2_pos p) - 53)
               ∧ Z.pos (digits2_pos m) = 53
               ∧ Z.pos m = Z.pos p * 2 ^ (53 - Z.pos (digits2_pos p)))
    as (m & E & Hm & Hv).
  { unfold binary_normalize, binary_round, shl_align.
    unfold fexp, SpecFloat.emin, prec, emax.
    replace (Z.max (Z.pos (digits2_pos p) + 0 - 53) (3 - 1024 - 53))
      with (Z.pos (digits2_pos p) - 53) by lia.
    destruct (Z.pos (digits2_pos p) - 53 - 0) as [|k|k] eqn:Ek; [|lia|].
    - exists p. rewrite binary_round_aux_exact by lia.
      replace (Z.pos (digits2_pos p)) with 53 by lia.
      split_and!; [done|lia|]. simpl. lia.
    - exists (Pos.iter xO p k).
      pose proof (digits2_pos_iter_xO p k).
      rewrite binary_round_aux_exact by lia. split_and!; [done|lia|].
      rewrite iter_xO_value. do 2 f_equal. lia. }
  exists m. split; [|done].
  unfold Py.float_of_int. rewrite E. apply Prim2SF_SF2Prim.
  unfold valid_binary, bounded, canonical_mantissa. rewrite Hm.
  unfold fexp, SpecFloat.emin, prec, emax.
  apply andb_true_intro. split; [apply Z.eqb_eq|apply Z.leb_le]; lia.
Qed.

Lemma float_of_int_nonneg (z : Z) :
  0 ≤ z < 2 ^ 53 → nonneg_float (Py.float_of_int z).
Proof.
  intros Hz. unfold nonneg_float. destruct z as [|p|p]; [done| |lia].
  destruct (float_of_int_pos p) as (m & -> & _); [lia|done].
Qed.

Lemma float_of_int_positive_finite (z : Z) :
  0 < z < 2 ^ 53 → positive_finite (Py.float_of_int z) = true.
Proof.
  intros Hz. unfold positive_finite. destruct z as [|p|p]; [lia| |lia].
  by destruct (float_of_int_pos p) as (m & -> & _); [lia|].
Qed.

(** Doubling an int raises the exponent of its conversion by one. *)
Lemma float_of_int_double p m e :
  Z.pos p~0 < 2 ^ 53 →
  Prim2SF (Py.float_of_int (Z.pos p)) = S754_finite false m e →
  Prim2SF (Py.float_of_int (Z.pos p~0)) = S754_finite false m (e + 1).
Proof.
  intros Hp E.
  destruct (float_of_int_pos p) as (m1 & E1 & _ & Hv1); [lia|].
  destruct (float_of_int_pos p~0) as (m2 & E2 & _ & Hv2); [lia|].
  rewrite E in E1. injection E1 as -> ->. rewrite E2.
  simpl digits2_pos in *. rewrite Pos2Z.inj_succ in *.
  pose proof (digits2_pos_le p 52 ltac:(lia) ltac:(lia)) as Hd52.
  replace (53 - Z.pos (digits2_pos p))
    with (Z.succ (53 - Z.succ (Z.pos (digits2_pos p)))) in Hv1 by lia.
  rewrite Z.pow_succ_r in Hv1 by lia.
  f_equal; lia.
Qed.

(** Twice a normal number: the same mantissa, the exponent one higher. *)
Lemma SFmul_two m e :
  Z.pos (digits2_pos m) = 53 → -1075 ≤ e ≤ 970 →
  SFmul prec emax (Prim2SF 2) (S754_finite false m e)
  = S754_finite false m (e + 1).
Proof.
  intros Hm He.
  change (Prim2SF 2) with (S754_finite false 4503599627370496 (-51)).
  unfold SFmul. cbn [xorb].
  assert (shr_fexp prec emax (Z.pos (4503599627370496 * m)) (-51 + e)
            loc_Exact
          = ({| shr_m := Z.pos m; shr_r := false; shr_s := false |}, e + 1))
    as E1.
  { unfold shr_fexp, Zdigits2.
    change (4503599627370496 * m)%positive with (Pos.iter xO m 52).
    rewrite digits2_pos_iter_xO, Hm.
    unfold fexp, SpecFloat.emin, prec, emax.
    replace (Z.max _ _ - (-51 + e)) with 52 by lia.
    cbn [shr shr_record_of_loc]. f_equal. lia. }
  assert (shr_fexp prec emax (Z.pos m) (e + 1) loc_Exact
          = ({| shr_m := Z.pos m; shr_r := false; shr_s := false |}, e + 1))
    as E2.
  { unfold shr_fexp, Zdigits2. rewrite Hm.
    unfold fexp, SpecFloat.emin, prec, emax.
    replace (Z.max (53 + (e + 1) - 53) (3 - 1024 - 53) - (e + 1)) with 0
      by lia. done. }
  unfold binary_round_aux. rewrite E1.
  cbn [shr_m loc_of_shr_record round_nearest_even]. rewrite E2.
  cbn [shr_m]. unfold prec, emax.
  destruct (Z.leb_spec (e + 1) (1024 - 53)); [done|lia].
Qed.

(** The quotient of a normal number by itself is one. *)
Lemma SFdiv_self m e :
  Z.pos (digits2_pos m) = 53 →
  SFdiv prec emax (S754_finite false m e) (S754_finite false m e)
  = Prim2SF 1.
Proof.
  intros Hm. unfold SFdiv, SFdiv_core_binary, Zdigits2. rewrite Hm.
  replace (53 + e - (53 + e)) with 0 by lia.
  replace (e - e) with 0 by lia.
  change (0 - Z.min (fexp prec emax 0) 0) with 53.
  cbv iota. rewrite div_eucl_eq, Z.shiftl_mul_pow2 by lia.
  rewrite Z.mul_comm, Z.div_mul, Z.mod_mul by lia.
  replace (new_location (Z.pos m) 0) with loc_Exact
    by (unfold new_location; by destruct (Z.even _)).
  vm_compute. reflexivity.
Qed.

(** [float(n) / float(n)] is [1.0], and [float(0) / float(n)] is [0.0]. *)
Lemma float_div_self (z : Z) :
  0 < z < 2 ^ 53 → (Py.float_of_int z / Py.float_of_int z)%float = 1%float.
Proof.
  intros Hz. destruct z as [|p|p]; [lia| |lia].
  destruct (float_of_int_pos p) as (m & E & Hm & _); [lia|].
  apply Prim2SF_inj. rewrite div_spec, E. by apply SFdiv_self.
Qed.

Lemma float_zero_div (x : float) (z : Z) :
  Prim2SF x = S754_zero false → 0 < z < 2 ^ 53 →
  (x / Py.float_of_int z)%float = 0%float.
Proof.
  intros Hx Hz. destruct z as [|p|p]; [lia| |lia].
  destruct (float_of_int_pos p) as (m & E & Hm & _); [lia|].
  apply Prim2SF_inj. rewrite div_spec, E, Hx. reflexivity.
Qed.

(** [2.0 * float(n) / float(n + n)] is [1.0]. *)
Lemma float_ratio_one (z : Z) :
  0 < z → z + z < 2 ^ 53 →
  (2 * Py.float_of_int z / Py.float_of_int (z + z))%float = 1%float.
Proof.
  intros Hz Hzz. destruct z as [|p|p]; [lia| |lia].
  destruct (float_of_int_pos p) as (m & E & Hm & _); [lia|].
  pose proof (digits2_pos_le p 52 ltac:(lia) ltac:(lia)) as Hd52.
  pose proof (Pos2Z.is_pos (digits2_pos p)).
  replace (Z.pos p + Z.pos p) with (Z.pos p~0) in * by lia.
  apply Prim2SF_inj.
  rewrite div_spec, mul_spec, (float_of_int_double p _ _ Hzz E), E.
  rewrite SFmul_two by lia. by apply SFdiv_self.
Qed.

Lemma bounded_mantissa m e :
  bounded prec emax m e = true → Z.pos m < 2 ^ 53.
Proof.
  unfold bounded, canonical_mantissa, fexp, SpecFloat.emin, prec, emax.
  intros [Hc _]%andb_prop. apply Z.eqb_eq in Hc.
  pose proof (digits2_pos_bounds m) as Hm.
  assert (2 ^ Z.pos (digits2_pos m) ≤ 2 ^ 53)
    by (apply Z.pow_le_mono_r; lia). lia.
Qed.

(** Every decimal from 0.1 to 100.0 converts to a float of the range. *)
Lemma of_tenths_in_range (t : positive) :
  Z.pos t ≤ 1000 → in_range (Float (Py.of_tenths false t)).
Proof.
  intros Ht.
  assert (Forall (λ t, Py.le (Int 0) (Float (Py.of_tenths false (Z.to_pos t)))
                       && Py.le (Float (Py.of_tenths false (Z.to_pos t)))
                                (Int 100) = true)
                 (seqZ 1 1000)) as Hall
    by (apply (bool_decide_unpack _); vm_compute; exact I).
  rewrite Forall_forall in Hall. specialize (Hall (Z.pos t)).
  apply andb_prop, Hall, elem_of_seqZ. lia.
Qed.

(** Clamping and rounding a score that is a number and not negative gives
    a score from 0 to 100. *)
Lemma reported_in_range (x : float) :
  nonneg_float x → in_range (reported (Float x)).
Proof.
  unfold nonneg_float. intros Hx. pose proof (Prim2SF_valid x) as Hv.
  unfold reported, Py.max, Py.min, Py.gt, Py.lt. cbn [Py.to_float].
  rewrite !ltb_spec.
  replace (Prim2SF (Py.float_of_int 0)) with (S754_zero false)
    by (vm_compute; reflexivity).
  replace (Prim2SF (Py.float_of_int 100))
    with (S754_finite false 7036874417766400 (-46))
    by (vm_compute; reflexivity).
  destruct (Prim2SF x) as [s|[]| |[] m e] eqn:EX; try done;
    cbn [SFltb SFcompare]; cbn [Py.to_float]; rewrite ?EX.
  - (* a zero rounds to itself *)
    cbn. unfold Py.round1_float. rewrite EX.
    unfold in_range, Py.le. cbn [Py.to_float]. rewrite !leb_spec, EX.
    split; vm_compute; reflexivity.
  - cbn. by split.
  - destruct (SFltb _ _) eqn:E100; [by split|].
    unfold Py.round1, Py.round1_float. rewrite EX.
    assert (0 ≤ Py.tenths m e ≤ 1000) as Ht.
    { unfold SFltb in E100. cbn [SFcompare] in E100.
      pose proof (bounded_mantissa m e Hv) as Hm.
      pose proof (Pos2Z.is_pos m) as Hpos.
      change (2 ^ 53) with 9007199254740992 in Hm.
      change (Pos.compare_cont Eq 7036874417766400 m)
        with (7036874417766400 ?= Z.pos m) in E100.
      assert (e < 0 ∧ 0 * 2 ^ (- e) ≤ 10 * Z.pos m ≤ 1000 * 2 ^ (- e))
        as [He Hme].
      { destruct (Z.compare_spec (-46) e) as [<-| |Hlt]; [|done|].
        - change (2 ^ (- (-46))) with 70368744177664.
          cbv beta iota in E100.
          clear Hv EX Hx. revert E100 Hm Hpos. generalize (Z.pos m).
          intros z ???.
          destruct (Z.compare_spec 7036874417766400 z); try done; lia.
        - assert (2 ^ 47 ≤ 2 ^ (- e)) as Hpow
            by (apply Z.pow_le_mono_r; lia).
          change (2 ^ 47) with 140737488355328 in Hpow.
          clear Hv EX Hx E100. revert Hm Hpow Hpos.
          generalize (Z.pos m) (2 ^ (- e)). intros z d ???. lia. }
      unfold Py.tenths. destruct (Z.leb_spec 0 e); [lia|].
      apply round_half_even_between; [|done].
      apply Z.pow_pos_nonneg; lia. }
    destruct (Py.tenths m e) as [|t|t];
      [|apply of_tenths_in_range; lia|lia].
    split; vm_compute; reflexivity.
Qed.
End floats.

(** ** The scores stay between 0 and 100 *)

Section range.
Context {U : Unicode} {Model : Type}.
Implicit Types (self : PronunciationService Model).
Implicit Types (expected_words spoken_words : list str).

Lemma credit_ok_mono lo lo' cc : credit_ok lo cc → lo ≤ lo' → credit_ok lo' cc.
Proof. destruct cc; simpl; [lia|done]. Qed.

Lemma credit_to_float lo cc :
  credit_ok lo cc → (Z.of_nat lo < 2 ^ 53)%Z → nonneg_float (Py.to_float cc).
Proof.
  destruct cc as [z|f]; simpl; [|done].
  intros ??. apply float_of_int_nonneg. lia.
Qed.

(** [ratio] returns a float. *)
Lemma ratio_float `{Countable A} (sm : Difflib.SequenceMatcher A) sim :
  Difflib.ratio sm = Some sim → ∃ f, sim = Float f.
Proof.
  unfold Difflib.ratio, Difflib._calculate_ratio, Py.truediv.
  destruct (Difflib.get_matching_blocks sm); [simpl|done].
  repeat case_match; intros [= <-]; eauto.
Qed.

Lemma score_replace_credit expected_words spoken_words j1 kidxs lo
    cc wes cc' wes' :
  score_replace expected_words spoken_words j1 kidxs cc wes
  = Some (cc', wes') →
  (Z.of_nat lo < 2 ^ 53)%Z →
  credit_ok lo cc → credit_ok lo cc'.
Proof.
  intros Hrun Hlo. revert cc wes Hrun.
  induction kidxs as [|[k idx] kidxs IH]; intros cc wes; cbn [score_replace].
  { by intros [= <- _]. }
  destruct (if decide _ then _ else _) as [spoken_w|];
    [cbn [mbind option_bind]|done].
  destruct (expected_words !! idx) as [w|]; [cbn [mbind option_bind]|done].
  destruct (Difflib.ratio _) as [sim|] eqn:Hsim;
    [cbn [mbind option_bind]|done].
  destruct (ratio_float _ _ Hsim) as [f ->].
  intros Hrun Hcc. apply IH in Hrun; [done|].
  destruct (Py.ge (Float f) (Float 0.6)) eqn:Hclose; [|done].
  assert (Py.add cc (Float f) = Float (Py.to_float cc + f)) as ->
    by (by destruct cc).
  apply add_nonneg; [by eapply credit_to_float|by apply close_nonneg].
Qed.

(** The credit stays an int counting expected words, or a float that
    is a number and not negative. *)
Lemma score_opcodes_credit expected_words spoken_words ops lo
    cc wes cc' wes' :
  Invariants.tiling (Difflib.new expected_words spoken_words)
    lo ops (length expected_words) →
  score_opcodes expected_words spoken_words ops cc wes = Some (cc', wes') →
  (Z.of_nat (length expected_words) < 2 ^ 53)%Z →
  credit_ok lo cc → credit_ok (length expected_words) cc'.
Proof.
  intros Hops Hrun Hla. revert lo cc wes Hops Hrun.
  induction ops as [|[[[[t i1] i2] j1] j2] ops IH]; intros lo cc wes Hops.
  { simpl in Hops. subst lo. by intros [= <- _]. }
  destruct Hops as (Hlo & [Hi Ht] & Hops). subst lo.
  pose proof (DifflibFacts.tiling_le _ _ _ _ Hops) as Hi2.
  cbn [score_opcodes].
  match goal with
  | |- ?step ≫= _ = _ → _ =>
      destruct step as [[cc1 wes1]|] eqn:Hstep; [|done]
  end.
  cbn [mbind option_bind]. intros Hrun Hcc.
  apply (IH i2 cc1 wes1 Hops Hrun).
  destruct t.
  - apply (score_replace_credit _ _ _ _ i2) in Hstep; [done|lia|].
    by apply (credit_ok_mono i1).
  - destruct (score_delete _ _ _); [|done]. injection Hstep as <- _.
    by apply (credit_ok_mono i1).
  - injection Hstep as <- _. by apply (credit_ok_mono i1).
  - destruct (score_equal _ _ _ _ _ _); [|done]. injection Hstep as <- _.
    destruct cc as [z|f]; simpl in *; [lia|].
    apply add_nonneg; [done|]. apply float_of_int_nonneg. lia.
Qed.

Lemma _fluency_score_values self spoken_words expected_words fl :
  _fluency_score self spoken_words expected_words = Some fl →
  fl ∈ [Float 100; Float 70; Float 40].
Proof.
  unfold _fluency_score. destruct expected_words as [|w ws].
  { intros [= <-]. by repeat constructor. }
  destruct (Py.truediv _ _); [cbn [mbind option_bind]|done].
  repeat case_match; intros [= <-]; by repeat constructor.
Qed.

Lemma max_total (total : nat) :
  0 < total → Py.max (Int (Z.of_nat total)) (Int 1) = Int (Z.of_nat total).
Proof.
  intros Ht. unfold Py.max, Py.gt, Py.lt.
  destruct (Z.ltb_spec (Z.of_nat total) 1); [lia|done].
Qed.

Lemma truediv_ints (x y : nat) :
  0 < y →
  Py.truediv (Int (Z.of_nat x)) (Int (Z.of_nat y))
  = Some (Float (Py.float_of_int (Z.of_nat x)
                 / Py.float_of_int (Z.of_nat y))).
Proof.
  intros Hy. unfold Py.truediv. simpl.
  destruct (Z.eqb_spec (Z.of_nat y) 0); [lia|done].
Qed.

(** As many words spoken as expected: the fluency is 100. *)
Lemma _fluency_score_same_count self spoken_words expected_words :
  length spoken_words = length expected_words →
  (Z.of_nat (length expected_words) < 2 ^ 53)%Z →
  _fluency_score self spoken_words expected_words = Some (Float 100).
Proof.
  intros Hlen Hn. unfold _fluency_score.
  destruct expected_words as [|w ws]; [done|].
  rewrite Hlen, truediv_ints by (simpl; lia).
  rewrite float_div_self by (simpl length in *; lia). done.
Qed.

(** No word spoken: the fluency is 40. *)
Lemma _fluency_score_silence self expected_words :
  expected_words ≠ [] →
  (Z.of_nat (length expected_words) < 2 ^ 53)%Z →
  _fluency_score self [] expected_words = Some (Float 40).
Proof.
  intros Hne Hn. unfold _fluency_score.
  destruct expected_words as [|w ws]; [done|].
  rewrite truediv_ints by (simpl; lia).
  rewrite float_zero_div by (done || simpl length in *; lia). done.
Qed.
End range.

(** ** The blocks of the matcher pair equal elements *)

Module AlignmentFacts.
Import Difflib Alignment.

Section matcher.
Context `{Countable A}.
Variable sm : SequenceMatcher A.
Hypothesis Hb2j : b2j_exact sm.

#[local] Abbreviation n := (length (sm_b sm)).
#[local] Abbreviation matches := (Alignment.matches sm).
#[local] Abbreviation runs := (Alignment.runs sm).
#[local] Abbreviation diag := (Alignment.diag sm).
#[local] Abbreviation diag_before := (Alignment.diag_before sm).
#[local] Abbreviation indexed := (Alignment.indexed sm).
#[local] Abbreviation below_diag := (Alignment.below_diag sm).
#[local] Abbreviation on_diag := (Alignment.on_diag sm).

Lemma runs_empty i : runs i ∅.
Proof. intros j k. by rewrite lookup_empty. Qed.

Lemma scan_row_matches blo bhi i ai j2len js newj2len best :
  sm_a sm !! i = Some ai →
  Forall (λ j, sm_b sm !! j = Some ai) js →
  runs i j2len → runs (i + 1) newj2len → matches best →
  runs (i + 1) (scan_row blo bhi i j2len js newj2len best).1
  ∧ matches (scan_row blo bhi i j2len js newj2len best).2.
Proof.
  intros Hai Hjs Hold. revert newj2len best.
  induction Hjs as [|j js Hj Hjs IH]; intros newj2len best Hnew Hbest;
    simpl; [done|].
  destruct (decide (j < blo)); [by apply IH|].
  destruct (decide (bhi ≤ j)); [done|].
  assert (j2lenget j2len j ≤ i ∧ j2lenget j2len j ≤ j
          ∧ ∀ d, d < j2lenget j2len j →
                 sm_a sm !! (i - 1 - d) = sm_b sm !! (j - 1 - d))
    as (Hk1 & Hk2 & Hrun).
  { destruct j as [|j']; simpl; [repeat split; intros; lia|].
    destruct (j2len !! j') as [k|] eqn:E; simpl;
      [|repeat split; intros; lia].
    destruct (Hold _ _ E) as (? & ? & Hr). repeat split; [lia..|].
    intros d Hd. rewrite Hr by done. f_equal. lia. }
  assert (∀ d, d < j2lenget j2len j + 1 →
            sm_a sm !! (i - d) = sm_b sm !! (j - d)) as Hrun'.
  { intros [|d] Hd.
    - rewrite !Nat.sub_0_r. congruence.
    - replace (i - S d) with (i - 1 - d) by lia.
      replace (j - S d) with (j - 1 - d) by lia. apply Hrun. lia. }
  apply IH.
  - intros j0 k0. rewrite lookup_insert. case_decide; [|by apply Hnew].
    intros [= <-]. subst j0. repeat split; [lia..|].
    intros d Hd. replace (i + 1 - 1 - d) with (i - d) by lia. by apply Hrun'.
  - destruct (decide (best.2 < _)); [|done].
    intros d Hd. simpl in *.
    replace (i + 1 - (j2lenget j2len j + 1) + d)
      with (i - (j2lenget j2len j - d)) by lia.
    replace (j + 1 - (j2lenget j2len j + 1) + d)
      with (j - (j2lenget j2len j - d)) by lia.
    apply Hrun'. lia.
Qed.

Lemma scan_rows_matches blo bhi n i j2len best m :
  scan_rows sm blo bhi (seq i n) j2len best = Some m →
  runs i j2len → matches best → matches m.
Proof.
  revert i j2len best.
  induction n as [|n IH]; intros i j2len best; simpl.
  { by intros [= <-]. }
  destruct (sm_a sm !! i) as [ai|] eqn:Hai; [simpl|done].
  intros Hrun Hruns Hbest.
  pose proof (scan_row_matches blo bhi i ai j2len
                (default [] (b2j sm !! ai)) ∅ best Hai) as Hrow.
  destruct (scan_row _ _ _ _ _ _ _) as [newj2len best']. simpl in Hrow.
  destruct Hrow as [Hr Hb]; [|done|apply runs_empty|done|].
  { destruct (b2j sm !! ai) as [js|] eqn:Ejs; simpl; [|done].
    apply Forall_forall. intros j Hj. by apply (Hb2j ai js Ejs). }
  apply (IH (S i) newj2len best'); [done| |done].
  by replace (S i) with (i + 1) by lia.
Qed.

Lemma extend_left_matches p alo blo besti bestj bestsize m :
  extend_left sm p alo blo besti bestj bestsize = Some m →
  matches (besti, bestj, bestsize) → matches m.
Proof.
  revert bestj bestsize.
  induction besti as [|i' IH]; intros bestj bestsize; simpl.
  { by intros [= <-]. }
  destruct bestj as [|j']; [by intros [= <-]|].
  destruct (decide (alo < S i' ∧ blo < S j')); [|by intros [= <-]].
  destruct (sm_b sm !! j') as [bj|] eqn:Hbj; [simpl|done].
  destruct (p bj); [|by intros [= <-]].
  destruct (sm_a sm !! i') as [ai|] eqn:Hai; [simpl|done].
  destruct (decide (ai = bj)) as [->|]; [|by intros [= <-]].
  intros Hrun Hm. apply IH in Hrun; [done|].
  intros [|d] Hd; simpl in *.
  - rewrite !Nat.add_0_r. congruence.
  - replace (i' + S d) with (S i' + d) by lia.
    replace (j' + S d) with (S j' + d) by lia. apply Hm. simpl. lia.
Qed.

Lemma extend_right_matches p bhi besti bestj room bestsize m :
  extend_right sm p bhi besti bestj room bestsize = Some m →
  matches (besti, bestj, bestsize) → matches m.
Proof.
  revert bestsize.
  induction room as [|room IH]; intros bestsize; simpl.
  { by intros [= <-]. }
  destruct (decide (bestj + bestsize < bhi)); [|by intros [= <-]].
  destruct (sm_b sm !! (bestj + bestsize)) as [bj|] eqn:Hbj; [simpl|done].
  destruct (p bj); [|by intros [= <-]].
  destruct (sm_a sm !! (besti + bestsize)) as [ai|] eqn:Hai; [simpl|done].
  destruct (decide (ai = bj)) as [->|]; [|by intros [= <-]].
  intros Hrun Hm. apply IH in Hrun; [done|].
  intros d Hd; simpl in *.
  destruct (decide (d = bestsize)) as [->|]; [congruence|].
  apply Hm. simpl. lia.
Qed.

Lemma extend_matches p alo ahi blo bhi m m' :
  extend sm p alo ahi blo bhi m = Some m' → matches m → matches m'.
Proof.
  unfold extend. destruct m as [[besti bestj] bestsize]; simpl.
  destruct (extend_left _ _ _ _ _ _ _) as [[[i j] k]|] eqn:El; [simpl|done].
  intros Er Hm. eapply extend_right_matches; [exact Er|].
  by eapply extend_left_matches.
Qed.

Lemma find_longest_match_matches alo ahi blo bhi m :
  find_longest_match sm alo ahi blo bhi = Some m → matches m.
Proof.
  unfold find_longest_match.
  destruct (scan_rows _ _ _ _ _ _) as [m1|] eqn:E1; [simpl|done].
  destruct (extend _ _ _ _ _ _ m1) as [m2|] eqn:E2; [simpl|done].
  intros E3. eapply extend_matches; [exact E3|].
  eapply extend_matches; [exact E2|].
  eapply scan_rows_matches; [exact E1|apply runs_empty|].
  intros d Hd. simpl in Hd. lia.
Qed.

Lemma match_loop_matches fuel queue blocks blocks' :
  match_loop sm fuel queue blocks = Some blocks' →
  Forall matches blocks → Forall matches blocks'.
Proof.
  revert queue blocks.
  induction fuel as [|fuel IH]; intros queue blocks;
    destruct queue as [|[[[alo ahi] blo] bhi] queue]; simpl;
    try (by intros [= <-]); try done.
  destruct (find_longest_match _ _ _ _ _) as [[[i j] k]|] eqn:Ef;
    [simpl|done].
  apply find_longest_match_matches in Ef.
  destruct (decide (k ≠ 0)); intros Hrun Hb;
    (eapply IH; [exact Hrun|]); [|done].
  apply Forall_app. by split; [|constructor].
Qed.

Lemma collapse_matches l : Forall matches l → Forall matches (collapse l).
Proof.
  unfold collapse.
  assert (∀ rest st,
            matches st.1 → Forall matches st.2 → Forall matches rest →
            matches (foldl collapse_step st rest).1
            ∧ Forall matches (foldl collapse_step st rest).2) as Hfold.
  { induction rest as [|[[i2 j2] k2] rest IH];
      intros [[[i1 j1] k1] out] Hcur Hout Hrest; [done|].
    inversion Hrest as [|? ? Hx Hrest']; subst.
    cbn [foldl]. apply IH; [| |done]; unfold collapse_step;
      case_decide as Hadj; simpl in *; try done.
    - destruct Hadj as [<- <-]. intros d Hd. simpl in *.
      destruct (decide (d < k1)); [by apply Hcur|].
      replace (i1 + d) with (i1 + k1 + (d - k1)) by lia.
      replace (j1 + d) with (j1 + k1 + (d - k1)) by lia.
      apply Hx. simpl. lia.
    - case_decide; [|done]. apply Forall_app. by split; [|constructor]. }
  intros Hl.
  destruct (Hfold l (0, 0, 0, [])) as [Hcur Hout]; [|done|done|].
  { intros d Hd. simpl in Hd. lia. }
  destruct (foldl collapse_step _ l) as [[[i j] k] out]; simpl in *.
  case_decide; [|done]. apply Forall_app. by split; [|constructor].
Qed.

(** Every block of [get_matching_blocks] pairs equal elements. *)
Lemma get_matching_blocks_matches blocks :
  get_matching_blocks sm = Some blocks → Forall matches blocks.
Proof.
  unfold get_matching_blocks.
  destruct (match_loop _ _ _ _) as [found|] eqn:E; [simpl|done].
  intros [= <-]. apply match_loop_matches in E; [|done].
  apply Forall_app. split.
  - apply collapse_matches. by rewrite merge_sort_Permutation.
  - constructor; [|done]. intros d Hd. simpl in Hd. lia.
Qed.

Lemma get_opcodes_matches ops :
  get_opcodes sm = Some ops → Forall (op_matches sm) ops.
Proof.
  unfold get_opcodes.
  destruct (get_matching_blocks sm) as [blocks|] eqn:E; [simpl|done].
  apply get_matching_blocks_matches in E. intros [= <-].
  assert (∀ st, Forall (op_matches sm) st.2 →
            Forall (op_matches sm) (foldl opcode_step st blocks).2) as Hfold.
  { induction E as [|[[ai bj] size] l Hx _ IH]; intros [[i j] answer] Hans;
      [done|].
    cbn [foldl]. apply IH. unfold opcode_step. simpl in *.
    assert (∀ t, t ≠ Equal →
              Forall (op_matches sm) (answer ++ [(t, i, ai, j, bj)])) as Hne.
    { intros t Ht. apply Forall_app. split; [done|].
      constructor; [|done]. by intros ?. }
    assert (∀ ans, Forall (op_matches sm) ans →
              Forall (op_matches sm)
                (if decide (size ≠ 0)
                 then ans ++ [(Equal, ai, ai + size, bj, bj + size)]
                 else ans)) as Heq.
    { intros ans Hans'. case_decide; [|done].
      apply Forall_app. split; [done|]. constructor; [|done].
      intros _ d Hd. apply Hx. simpl. lia. }
    apply Heq. repeat case_decide; try done; by apply Hne. }
  by apply Hfold.
Qed.

(** *** A sequence aligned with itself: the whole is one block *)

Section whole.
Hypothesis Hab : sm_a sm = sm_b sm.
Hypothesis Hjunk : bjunk sm = ∅.

Lemma diag_unfold j :
  diag j = if indexed j then diag_before j + 1 else 0.
Proof. destruct j; simpl; destruct (indexed _); lia. Qed.

Lemma j2lenget_below i j2len j :
  below_diag i j2len →
  j2lenget j2len j ≤ diag_before i ∧ j2lenget j2len j ≤ diag_before j.
Proof.
  intros [Hle _]. destruct j as [|j']; simpl; [lia|].
  destruct (j2len !! j') as [k|] eqn:E; simpl; [|lia]. by apply Hle.
Qed.

Lemma j2lenget_diag i j2len :
  below_diag i j2len → j2lenget j2len i = diag_before i.
Proof.
  intros [Hle Hex]. destruct i as [|i']; simpl; [done|].
  destruct (decide (0 < diag i')) as [Hpos|Hz].
  - by rewrite (Hex i' eq_refl Hpos).
  - destruct (j2len !! i') as [k|] eqn:E; simpl; [|lia].
    apply Hle in E as [_ ?]. lia.
Qed.

Lemma scan_row_diag i j2len js newj2len best :
  below_diag i j2len → indexed i = true →
  StronglySorted lt js → Forall (λ j, j < n ∧ indexed j = true) js →
  (∀ j k, newj2len !! j = Some k → k ≤ diag i ∧ k ≤ diag j) →
  on_diag i best →
  (i ∈ js ∨ (diag i ≤ best.2 ∧ newj2len !! i = Some (diag i)
             ∧ Forall (lt i) js)) →
  let r := scan_row 0 n i j2len js newj2len best in
  (∀ j k, r.1 !! j = Some k → k ≤ diag i ∧ k ≤ diag j)
  ∧ r.1 !! i = Some (diag i)
  ∧ on_diag (S i) r.2.
Proof.
  intros Hprev Hi Hsorted. revert newj2len best.
  induction Hsorted as [|j js Hsorted IH Hlt];
    intros newj2len best Hjs Hnew [Hd Hbest] Halt; simpl.
  { destruct Halt as [Hin|(? & ? & _)]; [by inversion Hin|].
    split_and!; [done|done|].
    split; [done|].
    intros r Hr. destruct (decide (r = i)) as [->|]; [done|].
    apply Hbest. lia. }
  inversion Hjs as [|? ? [Hjn Hj] Hjs']; subst.
  destruct (decide (n ≤ j)); [lia|].
  pose proof (j2lenget_below i j2len j Hprev) as [Hk1 Hk2].
  pose proof (diag_unfold i) as Hdi. rewrite Hi in Hdi.
  pose proof (diag_unfold j) as Hdj. rewrite Hj in Hdj.
  destruct (decide (j = i)) as [->|Hne].
  - (* the diagonal *)
    rewrite (j2lenget_diag i j2len Hprev), <- Hdi.
    apply IH; [done| | |].
    + intros j0 k0. rewrite lookup_insert. case_decide; [|by apply Hnew].
      intros [= <-]. by subst j0.
    + case_decide; split; simpl; try done; intros r Hr;
        specialize (Hbest r Hr); lia.
    + right. rewrite lookup_insert_eq.
      split_and!; [case_decide; simpl; lia|done|done].
  - assert (j2lenget j2len j + 1 ≤ best.2) as Hk.
    { destruct Halt as [Hin|(? & _ & Hgt)].
      - apply elem_of_cons in Hin as [?|Hin]; [done|].
        rewrite Forall_forall in Hlt. apply Hlt in Hin.
        specialize (Hbest j Hin). lia.
      - lia. }
    rewrite decide_False by lia.
    apply IH; [done| |done|].
    + intros j0 k0. rewrite lookup_insert. case_decide; [|by apply Hnew].
      intros [= <-]. subst j0. lia.
    + destruct Halt as [Hin|(? & ? & Hgt)].
      * left. by apply elem_of_cons in Hin as [?|Hin].
      * right. inversion Hgt; subst.
        rewrite lookup_insert_ne by lia. done.
Qed.

Lemma indexed_lookup j x :
  sm_b sm !! j = Some x → indexed j = bool_decide (is_Some (b2j sm !! x)).
Proof. unfold indexed, Alignment.indexed. by intros ->. Qed.

Lemma scan_rows_diag rows i j2len best :
  i + rows ≤ n →
  below_diag i j2len → on_diag i best →
  ∃ m, scan_rows sm 0 n (seq i rows) j2len best = Some m
       ∧ m.1.1 = m.1.2.
Proof.
  revert i j2len best.
  induction rows as [|rows IH]; intros i j2len best Hn Hprev Hbest; simpl.
  { exists best. split; [done|apply Hbest]. }
  destruct (lookup_lt_is_Some_2 (sm_b sm) i) as [ai Hai]; [lia|].
  rewrite Hab, Hai. simpl.
  pose proof (indexed_lookup i ai Hai) as Hidx.
  pose proof (diag_unfold i) as Hdi.
  destruct (b2j sm !! ai) as [js|] eqn:Ejs; simpl.
  - rewrite bool_decide_eq_true_2 in Hidx by done.
    destruct (Hb2j ai js Ejs) as [Hsorted Hmem].
    pose proof (scan_row_diag i j2len js ∅ best Hprev Hidx Hsorted) as Hrow.
    destruct (scan_row _ _ _ _ _ _ _) as [newj2len best']. simpl in Hrow.
    destruct Hrow as (Hn1 & Hn2 & Hb'); [| |done| |].
    + apply Forall_forall. intros j Hj%Hmem. split.
      * by eapply lookup_lt_Some.
      * rewrite (indexed_lookup j ai Hj). by apply bool_decide_eq_true_2.
    + intros j k. by rewrite lookup_empty.
    + left. by apply Hmem.
    + apply (IH (S i)); [lia| |done].
      split; [exact Hn1|]. by intros i' [= <-] _.
  - rewrite bool_decide_eq_false_2 in Hidx by (by intros [??]).
    rewrite Hidx in Hdi.
    apply (IH (S i)); [lia| |].
    + split; [intros j k; by rewrite lookup_empty|].
      intros i' [= <-]. simpl in Hdi. lia.
    + destruct Hbest as [Hd Hbest]. split; [done|].
      intros r Hr. destruct (decide (r = i)) as [->|]; [simpl in Hdi; lia|].
      apply Hbest. lia.
Qed.

Lemma extend_left_diag p besti bestsize :
  (∀ x, p x = true) → besti ≤ n →
  extend_left sm p 0 0 besti besti bestsize = Some (0, 0, bestsize + besti).
Proof.
  intros Hp. revert bestsize.
  induction besti as [|i' IH]; intros bestsize Hn; simpl.
  { by rewrite Nat.add_0_r. }
  destruct (lookup_lt_is_Some_2 (sm_b sm) i') as [x Hx]; [lia|].
  rewrite Hab, Hx. simpl. rewrite Hp, decide_True by done.
  rewrite IH by lia. do 2 f_equal. lia.
Qed.

Lemma extend_right_diag p room bestsize :
  (∀ x, p x = true) → bestsize + room = n →
  extend_right sm p n 0 0 room bestsize = Some (0, 0, n).
Proof.
  intros Hp. revert bestsize.
  induction room as [|room IH]; intros bestsize Hn; simpl.
  { by rewrite Nat.add_0_r in Hn; subst. }
  rewrite decide_True by lia.
  destruct (lookup_lt_is_Some_2 (sm_b sm) bestsize) as [x Hx]; [lia|].
  rewrite Hab, Hx. simpl. rewrite Hp, decide_True by done.
  apply IH. lia.
Qed.

(** On the whole of two equal sequences the longest match is the whole. *)
Lemma find_longest_match_whole :
  find_longest_match sm 0 n 0 n = Some (0, 0, n).
Proof.
  unfold find_longest_match.
  destruct (DifflibFacts.scan_rows_inside sm 0 n 0 n (n - 0) 0 ∅ (0, 0, 0))
    as (m & Hm & Hin); [lia|lia|by rewrite Hab|
                        apply DifflibFacts.row_ok_empty| |].
  { unfold Invariants.inside; simpl; lia. }
  destruct (scan_rows_diag (n - 0) 0 ∅ (0, 0, 0)) as (m' & Hm' & Hd); [lia| | |].
  { split; [intros j k; by rewrite lookup_empty|done]. }
  { split; [done|]. intros r Hr. lia. }
  rewrite Hm' in Hm. injection Hm as ->.
  rewrite Hm'. simpl.
  destruct m as [[bi bj] bk]. simpl in Hd. subst bj.
  unfold Invariants.inside in Hin. simpl in Hin.
  unfold extend at 2. simpl.
  rewrite extend_left_diag;
    [|intros x; unfold isbjunk; rewrite Hjunk;
      by rewrite bool_decide_eq_false_2 by set_solver|lia].
  simpl. rewrite extend_right_diag;
    [|intros x; unfold isbjunk; rewrite Hjunk;
      by rewrite bool_decide_eq_false_2 by set_solver|lia].
  simpl. unfold extend. simpl. by rewrite Nat.sub_diag.
Qed.

Lemma get_matching_blocks_whole :
  get_matching_blocks sm
  = Some (if decide (n ≠ 0) then [(0, 0, n); (n, n, 0)] else [(0, 0, 0)]).
Proof.
  unfold get_matching_blocks. rewrite Hab.
  replace (2 * n + 1) with (S (2 * n)) by lia. cbn [match_loop].
  rewrite find_longest_match_whole.
  cbn [mbind option_bind].
  case_decide as Hn.
  - rewrite !decide_False by lia.
    destruct (2 * n) eqn:E; [lia|]. cbn [match_loop mbind option_bind app].
    f_equal. unfold merge_sort, collapse. simpl.
    by rewrite decide_True by done.
  - destruct (2 * n) eqn:E; [|lia]. cbn [match_loop mbind option_bind].
    by replace n with 0 by lia.
Qed.

Lemma get_opcodes_whole :
  get_opcodes sm
  = Some (if decide (n ≠ 0) then [(Equal, 0, n, 0, n)] else []).
Proof.
  unfold get_opcodes. rewrite get_matching_blocks_whole.
  cbn [mbind option_bind]. f_equal.
  case_decide as Hn; simpl; [|done].
  rewrite (decide_True _ _ Hn).
  by rewrite !decide_False by lia.
Qed.

Lemma ratio_whole : ratio sm = _calculate_ratio n (n + n).
Proof.
  unfold ratio. rewrite get_matching_blocks_whole.
  cbn [mbind option_bind]. rewrite Hab. f_equal.
  case_decide; simpl; lia.
Qed.
End whole.
End matcher.

Section index.
Context `{Countable A}.

Lemma index_b_exact (b : list A) x :
  match index_b b !! x with
  | Some js => StronglySorted lt js ∧ ∀ j, j ∈ js ↔ b !! j = Some x
  | None => ∀ j, b !! j ≠ Some x
  end.
Proof.
  unfold index_b. revert x.
  induction b as [|y b IH] using rev_ind; intros x.
  { simpl. rewrite lookup_empty. by intros j. }
  rewrite imap_app, foldl_app. simpl. rewrite Nat.add_0_r.
  set (m := foldl _ ∅ (imap pair b)) in *.
  specialize (IH x).
  destruct (decide (y = x)) as [->|Hne].
  - rewrite lookup_insert_eq.
    assert (StronglySorted lt (default [] (m !! x))
            ∧ ∀ j, j ∈ default [] (m !! x) ↔ b !! j = Some x) as [Hs Hm].
    { destruct (m !! x) as [js|]; simpl; [done|].
      split; [constructor|]. intros j. split; [by inversion 1|].
      intros ?. by destruct (IH j). }
    split.
    + apply StronglySorted_app_2; [|done|by repeat constructor].
      intros j1 j2 Hj1%Hm ->%list_elem_of_singleton.
      by eapply lookup_lt_Some.
    + intros j. rewrite elem_of_app, list_elem_of_singleton, Hm.
      rewrite lookup_app_Some. split.
      * intros [?| ->]; [by left|right]. by rewrite Nat.sub_diag.
      * intros [?|[Hj Hl]]; [by left|right].
        destruct (j - length b) as [|d] eqn:E; [lia|].
        by destruct d.
  - rewrite lookup_insert_ne by done.
    assert (∀ j, (b ++ [y]) !! j = Some x ↔ b !! j = Some x) as Hl.
    { intros j. rewrite lookup_app_Some. split; [|by left].
      intros [?|[_ Hj]]; [done|].
      destruct (j - length b) as [|[|d]]; simpl in Hj; congruence. }
    destruct (m !! x) as [js|].
    + destruct IH as [Hs Hm]. split; [done|]. intros j. by rewrite Hl.
    + intros j. rewrite Hl. apply IH.
Qed.

Lemma new_b2j_exact (a b : list A) : b2j_exact (new a b).
Proof.
  intros x js. simpl.
  assert (∀ (X : gset A) (m : gmap A (list nat)),
            set_fold (λ elt m, delete elt m) m X !! x = Some js →
            m !! x = Some js) as Hsub.
  { intros X m.
    apply (set_fold_ind_L
             (λ m' _, m' !! x = Some js → m !! x = Some js)); [done|].
    intros y Y m' _ IH. rewrite lookup_delete. case_decide; [done|]. exact IH. }
  intros E%Hsub. pose proof (index_b_exact b x) as Hx.
  by rewrite E in Hx.
Qed.

(** A sequence aligned with itself: one [equal] opcode over the whole. *)
Lemma get_opcodes_self (a : list A) :
  get_opcodes (new a a)
  = Some (if decide (length a ≠ 0)
          then [(Equal, 0, length a, 0, length a)] else []).
Proof. apply (get_opcodes_whole (new a a)); [apply new_b2j_exact|done..]. Qed.

Lemma ratio_self (a : list A) :
  ratio (new a a) = _calculate_ratio (length a) (length a + length a).
Proof. apply (ratio_whole (new a a)); [apply new_b2j_exact|done..]. Qed.
End index.
End AlignmentFacts.

(** ** What the reports say *)

Section reports.
Context {U : Unicode} {Model : Type}.
Implicit Types (self : PronunciationService Model).
Implicit Types (expected_words spoken_words : list str).
Implicit Types (P : WordError → Prop).

Lemma score_equal_reports expected_words spoken_words i1 j1 idxs wes wes' P :
  score_equal expected_words spoken_words i1 j1 idxs wes = Some wes' →
  (∀ idx w s, idx ∈ idxs →
     expected_words !! idx = Some w →
     spoken_words !! (j1 + (idx - i1)) = Some s →
     P {| word := w; expected := w; spoken := s; position := idx;
          is_correct := true |}) →
  Forall P wes → Forall P wes'.
Proof.
  revert wes. induction idxs as [|idx idxs IH]; intros wes; simpl.
  { by intros [= <-]. }
  destruct (expected_words !! idx) as [w|] eqn:Ew; [simpl|done].
  destruct (spoken_words !! _) as [s|] eqn:Es; [simpl|done].
  intros Hrun HP Hwes. eapply IH; [exact Hrun| |].
  - intros. apply HP; [by right|done..].
  - apply Forall_app. split; [done|]. constructor; [|done].
    apply HP; [by left|done..].
Qed.

Lemma score_delete_reports expected_words idxs wes wes' P :
  score_delete expected_words idxs wes = Some wes' →
  (∀ idx w, idx ∈ idxs →
     expected_words !! idx = Some w →
     P {| word := w; expected := w; spoken := []; position := idx;
          is_correct := false |}) →
  Forall P wes → Forall P wes'.
Proof.
  revert wes. induction idxs as [|idx idxs IH]; intros wes; simpl.
  { by intros [= <-]. }
  destruct (expected_words !! idx) as [w|] eqn:Ew; [simpl|done].
  intros Hrun HP Hwes. eapply IH; [exact Hrun| |].
  - intros. apply HP; [by right|done..].
  - apply Forall_app. split; [done|]. constructor; [|done].
    apply HP; [by left|done..].
Qed.

Lemma score_replace_reports expected_words spoken_words j1 kidxs
    cc wes cc' wes' P :
  score_replace expected_words spoken_words j1 kidxs cc wes
  = Some (cc', wes') →
  (∀ idx w s sim, idx ∈ kidxs.*2 →
     expected_words !! idx = Some w →
     s = [] ∨ s ∈ spoken_words →
     Difflib.ratio (Difflib.new w s) = Some sim →
     P {| word := w; expected := w; spoken := s; position := idx;
          is_correct := Py.ge sim (Float 0.6) |}) →
  Forall P wes → Forall P wes'.
Proof.
  revert cc wes.
  induction kidxs as [|[k idx] kidxs IH]; intros cc wes; cbn [score_replace].
  { by intros [= _ <-]. }
  destruct (if decide _ then _ else _) as [spoken_w|] eqn:Hs;
    [cbn [mbind option_bind]|done].
  destruct (expected_words !! idx) as [w|] eqn:Ew;
    [cbn [mbind option_bind]|done].
  destruct (Difflib.ratio _) as [sim|] eqn:Hsim;
    [cbn [mbind option_bind]|done].
  intros Hrun HP Hwes. eapply IH; [exact Hrun| |].
  - intros. eapply HP; [by right|done..].
  - apply Forall_app. split; [done|]. constructor; [|done].
    eapply HP; [by left|done| |done].
    case_decide; [right; by eapply list_elem_of_lookup_2|left; congruence].
Qed.

(** The reports of a run of the scoring loop are those of its opcodes. *)
Lemma score_opcodes_reports expected_words spoken_words ops
    cc wes cc' wes' P :
  score_opcodes expected_words spoken_words ops cc wes = Some (cc', wes') →
  Forall (op_reports expected_words spoken_words P) ops →
  Forall P wes → Forall P wes'.
Proof.
  intros Hrun Hops. revert cc wes Hrun.
  induction Hops as [|[[[[t i1] i2] j1] j2] ops Hop Hops IH]; intros cc wes.
  { by intros [= _ <-]. }
  cbn [score_opcodes].
  match goal with
  | |- ?step ≫= _ = _ → _ =>
      destruct step as [[cc1 wes1]|] eqn:Hstep; [|done]
  end.
  cbn [mbind option_bind]. intros Hrun Hwes.
  apply (IH cc1 wes1 Hrun).
  destruct t; simpl in Hop.
  - eapply score_replace_reports; [exact Hstep| |done].
    intros idx w s sim Hin. apply Hop.
    rewrite fmap_imap in Hin. simpl in Hin.
    apply elem_of_lookup_imap in Hin as (k & x & -> & Hx%lookup_seq).
    simpl. lia.
  - destruct (score_delete _ _ _) as [wes2|] eqn:Hd; [|done].
    injection Hstep as _ <-.
    eapply score_delete_reports; [exact Hd| |done].
    intros idx w Hin%elem_of_seq. apply Hop. lia.
  - by injection Hstep as _ <-.
  - destruct (score_equal _ _ _ _ _ _) as [wes2|] eqn:He; [|done].
    injection Hstep as _ <-.
    eapply score_equal_reports; [exact He| |done].
    intros idx w s Hin%elem_of_seq. apply Hop. lia.
Qed.

(** Against no spoken word the alignment is one [delete] opcode. *)
Lemma get_opcodes_empty_b `{Countable A} (sm : Difflib.SequenceMatcher A) :
  length (Difflib.sm_b sm) = 0 → length (Difflib.sm_a sm) ≠ 0 →
  Difflib.get_opcodes sm
  = Some [(Difflib.Delete, 0, length (Difflib.sm_a sm), 0, 0)].
Proof.
  intros Hlb Hla. unfold Difflib.get_opcodes.
  destruct (DifflibFacts.get_matching_blocks_chain sm)
    as (blocks & -> & Hch).
  rewrite (DifflibFacts.chain_empty_b sm _ _ _ Hlb Hch), Hlb. simpl.
  rewrite decide_False by lia. by rewrite decide_True by lia.
Qed.

(** The empty word is close to no word. *)
Lemma close_empty (w : str) : w ≠ [] → close w [] = false.
Proof.
  intros Hw. unfold close.
  rewrite DifflibFacts.ratio_empty_b; [|done|by destruct w].
  apply zero_ratio_not_close.
Qed.

(** A word has similarity 1.0 with itself. *)
Lemma ratio_identical (w : str) :
  (Z.of_nat (length w + length w) < 2 ^ 53)%Z →
  Difflib.ratio (Difflib.new w w) = Some (Float 1).
Proof.
  intros Hlen. rewrite AlignmentFacts.ratio_self.
  unfold Difflib._calculate_ratio. case_decide as Hw; [|done].
  unfold Py.truediv. simpl.
  destruct (Z.eqb_spec (Z.of_nat (length w + length w)) 0); [lia|].
  rewrite Nat2Z.inj_add, float_ratio_one by lia. done.
Qed.

(** The reports of [_score], whatever the texts: each satisfies [P] as
    soon as the reports of the three branches do. *)
Lemma _score_reports self spoken_t expected_t P :
  (∀ idx w, words_of expected_t !! idx = Some w →
     w ∈ words_of spoken_t →
     P {| word := w; expected := w; spoken := w; position := idx;
          is_correct := true |}) →
  (∀ idx w s sim, words_of expected_t !! idx = Some w →
     s = [] ∨ s ∈ words_of spoken_t →
     Difflib.ratio (Difflib.new w s) = Some sim →
     P {| word := w; expected := w; spoken := s; position := idx;
          is_correct := Py.ge sim (Float 0.6) |}) →
  (∀ idx w, words_of expected_t !! idx = Some w →
     P {| word := w; expected := w; spoken := []; position := idx;
          is_correct := false |}) →
  ∃ r, _score self spoken_t expected_t = Some r ∧ Forall P (word_errors r).
Proof.
  intros Hequal Hreplace Hdelete.
  destruct (_score_spec self spoken_t expected_t) as (r & Hr & _).
  exists r. split; [done|]. revert Hr.
  unfold _score. fold (words_of spoken_t) (words_of expected_t).
  destruct (Difflib.get_opcodes _) as [ops|] eqn:Hops; [|done].
  apply AlignmentFacts.get_opcodes_matches in Hops;
    [|apply AlignmentFacts.new_b2j_exact].
  cbn [mbind option_bind].
  destruct (score_opcodes _ _ _ _ _) as [[cc wes]|] eqn:Hrun; [|done].
  cbn [mbind option_bind].
  destruct (Py.truediv _ _); [|done]. cbn [mbind option_bind].
  destruct (_fluency_score _ _ _); [|done]. cbn [mbind option_bind].
  intros [= <-]. cbn [word_errors].
  eapply score_opcodes_reports; [exact Hrun| |done].
  eapply Forall_impl; [exact Hops|].
  intros [[[[t i1] i2] j1] j2] Hop. destruct t; simpl.
  - intros idx w s sim _. apply Hreplace.
  - intros idx w _. apply Hdelete.
  - done.
  - intros idx w s Hidx Hw Hs.
    specialize (Hop eq_refl (idx - i1) ltac:(lia)). simpl in Hop.
    replace (i1 + (idx - i1)) with idx in Hop by lia.
    assert (s = w) as -> by congruence.
    apply Hequal; [done|]. by eapply list_elem_of_lookup_2.
Qed.
End reports.

(** ** The opcodes partition both sequences *)

Module PartitionFacts.
Import Difflib Invariants Partition.

Section matcher.
Context `{Countable A}.
Variable sm : SequenceMatcher A.

#[local] Abbreviation la := (length (sm_a sm)).
#[local] Abbreviation lb := (length (sm_b sm)).
#[local] Abbreviation region_ok := (Invariants.region_ok sm).
#[local] Abbreviation block_ok := (Invariants.block_ok sm).

Lemma ordered_sym x y : ordered x y → ordered y x.
Proof. unfold ordered. tauto. Qed.

Lemma ordered_inbox r x y : ordered r y → inbox r x → ordered x y.
Proof. unfold ordered, before, inbox. lia. Qed.

Lemma pairwise_ordered_perm l l' :
  l ≡ₚ l' → pairwise_ordered l → pairwise_ordered l'.
Proof.
  induction 1 as [|x l l' Hp IH|x y l|l l' l'' _ IH1 _ IH2]; simpl.
  - done.
  - intros [Hx Hl]. split; [by rewrite <- Hp|by apply IH].
  - intros [Hy [Hx Hl]]. inversion Hy as [|? ? Hyx Hyl]; subst.
    repeat split; try done. constructor; [by apply ordered_sym|done].
  - intros Hl. by apply IH2, IH1.
Qed.

Lemma pairwise_ordered_refine r parts rest :
  pairwise_ordered (r :: rest) →
  Forall (inbox r) parts → pairwise_ordered parts →
  pairwise_ordered (parts ++ rest).
Proof.
  intros [Hr Hrest]. induction parts as [|x parts IH]; simpl; [done|].
  intros Hw [Hx Hparts]. inversion Hw as [|? ? Hwx Hwp]; subst.
  split; [|by apply IH].
  apply Forall_app. split; [done|].
  eapply Forall_impl; [exact Hr|]. intros y Hy. by eapply ordered_inbox.
Qed.

#[local] Ltac box_lia :=
  unfold ordered, before, inbox, block_box in *; simpl in *; lia.

(** The blocks found by the work list are ordered pairwise: of any two,
    one ends before the other starts, in both sequences. *)
Lemma match_loop_ordered fuel queue blocks blocks' :
  match_loop sm fuel queue blocks = Some blocks' →
  Forall region_ok queue →
  pairwise_ordered (map block_box blocks ++ queue) →
  pairwise_ordered (map block_box blocks').
Proof.
  revert queue blocks.
  induction fuel as [|fuel IH]; intros queue blocks;
    destruct queue as [|[[[alo ahi] blo] bhi] queue]; simpl;
    try (intros [= <-] _ Hp; by rewrite app_nil_r in Hp).
  intros Hrun Hq Hp.
  inversion Hq as [|? ? Hr Hq']; subst.
  destruct (DifflibFacts.find_longest_match_inside sm alo ahi blo bhi Hr)
    as ([[i j] k] & Hfind & Hin).
  rewrite Hfind in Hrun. simpl in Hrun.
  unfold inside in Hin; simpl in Hin. destruct Hr as (?&?&?&?).
  assert (pairwise_ordered
            ((alo, ahi, blo, bhi) :: map block_box blocks ++ queue)) as Hp'.
  { eapply pairwise_ordered_perm; [|exact Hp].
    by rewrite <- Permutation_middle. }
  destruct (decide (k ≠ 0));
    [|by apply (IH _ _ Hrun); [|destruct Hp']].
  set (left := if decide (alo < i ∧ blo < j)
               then [(alo, i, blo, j)] else []) in *.
  set (right := if decide (i + k < ahi ∧ j + k < bhi)
                then [(i + k, ahi, j + k, bhi)] else []) in *.
  assert ((if decide (i + k < ahi ∧ j + k < bhi)
           then (i + k, ahi, j + k, bhi)
                :: (if decide (alo < i ∧ blo < j)
                    then (alo, i, blo, j) :: queue else queue)
           else if decide (alo < i ∧ blo < j)
                then (alo, i, blo, j) :: queue else queue)
          = right ++ left ++ queue) as Hqueue.
  { unfold left, right. by repeat case_decide. }
  rewrite Hqueue in Hrun. clear Hqueue.
  apply (IH _ _ Hrun).
  - apply Forall_app. split; [|apply Forall_app; split; [|done]].
    + unfold right. case_decide; repeat constructor; simpl; lia.
    + unfold left. case_decide; repeat constructor; simpl; lia.
  - eapply pairwise_ordered_perm;
      [|apply (pairwise_ordered_refine (alo, ahi, blo, bhi)
                 (block_box (i, j, k) :: right ++ left) _ Hp')].
    + rewrite !map_app. simpl.
      rewrite <- !app_assoc. simpl.
      rewrite <- Permutation_middle. f_equiv.
      rewrite !app_assoc. f_equiv.
      rewrite <- !app_assoc.
      by rewrite (Permutation_app_comm (map block_box blocks)),
                 <- !app_assoc.
    + constructor; [box_lia|].
      apply Forall_app. unfold left, right.
      split; case_decide; repeat constructor; box_lia.
    + simpl. unfold left, right.
      repeat case_decide; simpl;
        repeat (split || constructor); box_lia.
Qed.

Lemma chain2_mono lo l hi hi' :
  chain2 lo l hi → hi.1 ≤ hi'.1 → hi.2 ≤ hi'.2 → chain2 lo l hi'.
Proof.
  revert lo. induction l as [|[[i j] k] l IH]; intros lo; simpl; [lia|].
  intros (?&?&?&?) ??. eauto.
Qed.

Lemma chain2_snoc lo l mid i j k :
  chain2 lo l mid → mid.1 ≤ i → mid.2 ≤ j → 0 < k →
  chain2 lo (l ++ [(i, j, k)]) (i + k, j + k).
Proof.
  revert lo. induction l as [|[[i' j'] k'] l IH]; intros lo; simpl.
  - lia.
  - intros (?&?&?&?) ???. eauto.
Qed.

Lemma sorted_chain2 l lo :
  StronglySorted Match_le l →
  pairwise_ordered (map block_box l) →
  Forall block_ok l →
  Forall (λ m, lo.1 ≤ m.1.1 ∧ lo.2 ≤ m.1.2) l →
  lo.1 ≤ la → lo.2 ≤ lb →
  chain2 lo l (la, lb).
Proof.
  intros Hs. revert lo.
  induction Hs as [|[[i j] k] l Hs IH Hx]; intros lo Hp Hb Hlo Hla Hlb;
    simpl; [done|].
  destruct Hp as [Hap Hp].
  inversion Hb as [|? ? (Hk & Hi & Hj) Hb']; subst. simpl in *.
  inversion Hlo as [|? ? [Hi0 Hj0] _]; subst. simpl in *.
  split_and!; try done.
  apply IH; try done; simpl; try lia.
  apply Forall_forall. intros [[i' j'] k'] Hin.
  rewrite Forall_forall in Hx. rewrite Forall_forall in Hap.
  rewrite Forall_forall in Hb'.
  pose proof (Hx _ Hin) as Hle.
  pose proof (Hb' _ Hin) as (Hk' & _).
  pose proof (Hap (block_box (i', j', k'))
                ltac:(by apply list_elem_of_fmap_2)) as Hap'.
  unfold ordered, before, block_box in Hap'. simpl in *. lia.
Qed.

Lemma collapse_chain2 l :
  chain2 (0, 0) l (la, lb) → chain2 (0, 0) (collapse l) (la, lb).
Proof.
  unfold collapse.
  assert (∀ rest i1 j1 k1 out lo,
            chain2 (0, 0) out lo →
            (if decide (k1 ≠ 0)
             then lo.1 ≤ i1 ∧ lo.2 ≤ j1
                  ∧ chain2 (i1 + k1, j1 + k1) rest (la, lb)
             else chain2 lo rest (la, lb)) →
            ∃ lo',
              chain2 (0, 0) (foldl collapse_step (i1, j1, k1, out) rest).2 lo'
              ∧ let '(i, j, k) :=
                  (foldl collapse_step (i1, j1, k1, out) rest).1 in
                if decide (k ≠ 0)
                then lo'.1 ≤ i ∧ lo'.2 ≤ j ∧ i + k ≤ la ∧ j + k ≤ lb
                else lo'.1 ≤ la ∧ lo'.2 ≤ lb) as Hfold.
  { induction rest as [|[[i2 j2] k2] rest IH];
      intros i1 j1 k1 out lo Hout Hcur; simpl.
    { exists lo. split; [done|]. case_decide; simpl in *; lia. }
    destruct (decide (k1 ≠ 0)) as [Hk1|Hk1]; simpl in Hcur.
    - destruct Hcur as (? & ? & ? & ? & ? & ?).
      case_decide as Hadj.
      + apply (IH _ _ _ _ lo); [done|].
        rewrite decide_True by lia.
        destruct Hadj as [<- <-].
        replace (i1 + (k1 + k2)) with (i1 + k1 + k2) by lia.
        replace (j1 + (k1 + k2)) with (j1 + k1 + k2) by lia.
        done.
      + apply (IH _ _ _ _ (i1 + k1, j1 + k1)).
        * apply (chain2_snoc _ _ lo); [done|lia..].
        * rewrite decide_True by lia. done.
    - destruct Hcur as (? & ? & ? & ?).
      assert (k1 = 0) as -> by lia.
      case_decide as Hadj.
      + apply (IH _ _ _ _ lo); [done|].
        rewrite decide_True by lia.
        destruct Hadj as [Hi Hj]. rewrite Nat.add_0_r in Hi, Hj. subst.
        done.
      + apply (IH _ _ _ _ lo); [done|].
        rewrite decide_True by lia. done. }
  intros Hl.
  destruct (Hfold l 0 0 0 [] (0, 0)) as (lo' & Hout & Hcur);
    [simpl; lia|done|].
  destruct (foldl collapse_step _ l) as [[[i j] k] out]; simpl in *.
  destruct (decide (k ≠ 0)).
  - destruct Hcur as (? & ? & ? & ?).
    apply (chain2_mono _ _ (i + k, j + k)); [|simpl; lia..].
    apply (chain2_snoc _ _ lo'); [done|lia..].
  - apply (chain2_mono _ _ lo'); [done|simpl; lia..].
Qed.

(** The blocks of [get_matching_blocks] advance through both sequences. *)
Lemma get_matching_blocks_chain2 blocks :
  get_matching_blocks sm = Some blocks →
  ∃ blocks', blocks = blocks' ++ [(la, lb, 0)]
             ∧ chain2 (0, 0) blocks' (la, lb).
Proof.
  unfold get_matching_blocks.
  destruct (DifflibFacts.match_loop_inv sm (2 * la + 1) [(0, la, 0, lb)] [])
    as (found & Hrun & Hok & _).
  - repeat constructor; simpl; lia.
  - constructor.
  - simpl. repeat constructor.
  - rewrite DifflibFacts.work_cons. change (work []) with 0. lia.
  - rewrite Hrun. simpl. intros [= <-]. eexists. split; [done|].
    apply match_loop_ordered in Hrun;
      [|repeat constructor; simpl; lia|simpl; by repeat constructor].
    apply collapse_chain2, sorted_chain2.
    + apply StronglySorted_merge_sort;
        [apply DifflibFacts.Match_le_trans|apply DifflibFacts.Match_le_total].
    + eapply pairwise_ordered_perm; [|exact Hrun].
      by rewrite merge_sort_Permutation.
    + by rewrite merge_sort_Permutation.
    + apply Forall_forall. intros; simpl; lia.
    + simpl; lia.
    + simpl; lia.
Qed.

Lemma tiling2_snoc lo ops i1 j1 t i2 j2 :
  tiling2 lo ops (i1, j1) → tag_ok (t, i1, i2, j1, j2) →
  tiling2 lo (ops ++ [(t, i1, i2, j1, j2)]) (i2, j2).
Proof.
  revert lo. induction ops as [|[[[[t' i1'] i2'] j1'] j2'] ops IH];
    intros lo; simpl.
  - by intros -> ?.
  - intros (-> & ? & ?) ?. eauto.
Qed.

Lemma opcode_step_tiling2 i j answer ai bj size :
  tiling2 (0, 0) answer (i, j) → i ≤ ai → j ≤ bj →
  tiling2 (0, 0) (opcode_step (i, j, answer) (ai, bj, size)).2
          (ai + size, bj + size)
  ∧ (opcode_step (i, j, answer) (ai, bj, size)).1 = (ai + size, bj + size).
Proof.
  intros Hans Hi Hj. unfold opcode_step. simpl. split; [|done].
  assert (∀ ans, tiling2 (0, 0) ans (ai, bj) →
            tiling2 (0, 0)
              (if decide (size ≠ 0)
               then ans ++ [(Equal, ai, ai + size, bj, bj + size)]
               else ans) (ai + size, bj + size)) as Heq.
  { intros ans Hai. case_decide.
    - apply tiling2_snoc; [done|]. simpl. lia.
    - by replace (ai + size) with ai by lia;
        replace (bj + size) with bj by lia. }
  apply Heq. clear Heq.
  repeat case_decide;
    try (apply tiling2_snoc; [done|]; simpl; lia).
  by replace ai with i by lia; replace bj with j by lia.
Qed.

Lemma opcodes_tiling2 l i j answer hi :
  tiling2 (0, 0) answer (i, j) → chain2 (i, j) l hi →
  tiling2 (0, 0) (foldl opcode_step (i, j, answer) l).2
          (foldl opcode_step (i, j, answer) l).1
  ∧ (foldl opcode_step (i, j, answer) l).1.1 ≤ hi.1
  ∧ (foldl opcode_step (i, j, answer) l).1.2 ≤ hi.2.
Proof.
  revert i j answer.
  induction l as [|[[ai bj] size] l IH]; intros i j answer Hans Hl;
    [done|].
  cbn [foldl]. simpl in Hl. destruct Hl as (? & ? & ? & Hl).
  destruct (opcode_step_tiling2 i j answer ai bj size) as [Ht Hi];
    [done..|].
  destruct (opcode_step (i, j, answer) (ai, bj, size)) as [[i' j'] ans'].
  simpl in Ht, Hi. injection Hi as -> ->. by apply IH.
Qed.

(** The opcodes of [get_opcodes] partition [a] and [b]. *)
Lemma get_opcodes_tiling2 ops :
  get_opcodes sm = Some ops → tiling2 (0, 0) ops (la, lb).
Proof.
  unfold get_opcodes.
  destruct (get_matching_blocks sm) as [blocks|] eqn:Hb; [simpl|done].
  apply get_matching_blocks_chain2 in Hb as (blocks' & -> & Hch).
  intros [= <-]. rewrite foldl_app. cbn [foldl].
  destruct (opcodes_tiling2 blocks' 0 0 [] (la, lb)) as (Ht & Hi & Hj);
    [done..|].
  destruct (foldl opcode_step (0, 0, []) blocks') as [[i j] answer].
  simpl in Ht, Hi, Hj.
  destruct (opcode_step_tiling2 i j answer la lb 0) as [Ht' _];
    [done..|].
  by rewrite !Nat.add_0_r in Ht'.
Qed.
End matcher.
End PartitionFacts.

(** ** The normaliser *)

Section normaliser.
Context {U : Unicode}.

Lemma split_from_chars (R : N → Prop) cur text :
  Forall R cur → Forall (λ c, isspace c = false → R c) text →
  Forall (Forall R) (split_from cur text).
Proof.
  revert cur. induction text as [|c text IH]; intros cur Hcur Htext; simpl.
  { destruct cur as [|c cur]; [apply Forall_nil_2|].
    by apply Forall_cons_2; [|apply Forall_nil_2]. }
  inversion Htext as [|? ? Hc Htext']; subst.
  destruct (isspace c) eqn:Ec.
  - destruct cur; [by apply IH|]. constructor; [done|by apply IH].
  - apply IH; [|done]. apply Forall_app. split; [done|].
    constructor; [by apply Hc|done].
Qed.

Lemma lstrip_Forall (P : N → Prop) text :
  Forall P text → Forall P (lstrip text).
Proof.
  induction 1 as [|c text Hc Ht IH]; simpl; [done|].
  destruct (isspace c); [done|by constructor].
Qed.

Lemma strip_Forall (P : N → Prop) text : Forall P text → Forall P (strip text).
Proof.
  intros Ht. unfold strip.
  by apply Forall_reverse, lstrip_Forall, Forall_reverse, lstrip_Forall.
Qed.

Lemma collapse_whitespace_Forall (P : N → Prop) in_run text :
  P 32%N → Forall P text → Forall P (collapse_whitespace in_run text).
Proof.
  intros H32 Ht. revert in_run.
  induction Ht as [|c text Hc Ht IH]; intros in_run; simpl; [done|].
  destruct (isspace c); [destruct in_run|]; try constructor; done.
Qed.

(** [_score] reads its two texts through their words only. *)
Lemma _score_words {Model} (self : PronunciationService Model)
    spoken_t spoken_t' expected_t expected_t' :
  words_of spoken_t = words_of spoken_t' →
  words_of expected_t = words_of expected_t' →
  outcome <$> _score self spoken_t expected_t
  = outcome <$> _score self spoken_t' expected_t'.
Proof.
  intros Hs He. unfold _score.
  fold (words_of spoken_t) (words_of expected_t).
  fold (words_of spoken_t') (words_of expected_t').
  rewrite Hs, He.
  destruct (Difflib.get_opcodes _); [|done]. cbn [mbind option_bind].
  destruct (score_opcodes _ _ _ _ _) as [[cc wes]|]; [|done].
  cbn [mbind option_bind].
  destruct (Py.truediv _ _); [|done]. cbn [mbind option_bind].
  by destruct (_fluency_score _ _ _).
Qed.
End normaliser.

(** On the Basic Latin block a punctuation character leaves no trace in
    the words, and neither does the case of a letter. *)
Lemma words_of_punctuation {U : Unicode} (t1 t2 : str) (p : N) :
  basic_latin U → ascii_text t1 → ascii_text t2 → ascii_punctuation p →
  words_of (t1 ++ p :: t2) = words_of (t1 ++ t2).
Proof.
  intros HU H1 H2 (Hp & Ha & H95 & Hs).
  rewrite !(words_of_ascii HU);
    [|by apply Forall_app|apply Forall_app; split; [done|by constructor]].
  unfold words_of, _normalise, strip_punctuation. simpl.
  rewrite !map_app, !List.filter_app. simpl.
  assert (BasicLatin.lower_cp p = p) as ->.
  { unfold BasicLatin.lower_cp. destruct (_ && _) eqn:E; [|done].
    unfold BasicLatin.alnum in Ha. rewrite E in Ha.
    by rewrite orb_true_r in Ha. }
  unfold is_word. simpl. rewrite Ha, Hs.
  by destruct (N.eqb_spec p 95).
Qed.

Lemma words_of_case {U : Unicode} (t : str) :
  basic_latin U → ascii_text t →
  words_of (map BasicLatin.lower_cp t) = words_of t.
Proof.
  intros HU Ht.
  assert (∀ c, (c < 128)%N → (BasicLatin.lower_cp c < 128)%N) as Hlow.
  { intros c Hc. unfold BasicLatin.lower_cp.
    destruct (_ && _) eqn:E; [|done].
    apply andb_prop in E as [_ E%N.leb_le]. lia. }
  rewrite !(words_of_ascii HU);
    [|done|apply Forall_fmap; eapply Forall_impl; [exact Ht|apply Hlow]].
  unfold words_of, _normalise. simpl. rewrite map_map.
  do 4 f_equal. apply map_ext. intros c.
  unfold BasicLatin.lower_cp.
  destruct ((65 <=? c)%N && (c <=? 90)%N) eqn:E; [|by rewrite E].
  apply andb_prop in E as [E1%N.leb_le E2%N.leb_le].
  destruct (N.leb_spec (c + 32) 90); [lia|]. by rewrite andb_false_r.
Qed.

(** ** The entry points *)

Section entry_facts.
Context {U : Unicode} {Model : Type}.
Variable whisper_transcribe : Model → list Byte.byte → str → option str.

(** Without a model [evaluate] scores the placeholder transcript. *)
Lemma evaluate_fallback (self : PronunciationService Model)
    audio_bytes expected_t language :
  _whisper_model _ self = None →
  ∃ r, evaluate whisper_transcribe self audio_bytes expected_t language
       = Some r
       ∧ _score self placeholder expected_t = Some r
       ∧ spoken_text r = placeholder ∧ expected_text r = expected_t.
Proof.
  intros Hno. unfold evaluate, _transcribe. rewrite Hno. simpl.
  destruct (_score_spec self placeholder expected_t)
    as (r & Hr & _ & _ & ? & ?). by exists r.
Qed.

(** [evaluate] raises only when Whisper does; its result echoes the
    expected text. *)
Lemma evaluate_spec (self : PronunciationService Model)
    audio_bytes expected_t language :
  match evaluate whisper_transcribe self audio_bytes expected_t language with
  | Some r => expected_text r = expected_t
  | None =>
      ∃ model, _whisper_model _ self = Some model
               ∧ whisper_transcribe model audio_bytes
                   (first_field 45 language) = None
  end.
Proof.
  unfold evaluate, _transcribe, _transcribe_whisper.
  destruct (_whisper_model _ self) as [model|] eqn:Hmodel; simpl.
  - destruct (whisper_transcribe model audio_bytes _) as [text|] eqn:Hw;
      simpl; [|by exists model].
    by destruct (_score_spec self (strip text) expected_t)
      as (r & -> & _ & _ & _ & ?).
  - by destruct (_score_spec self placeholder expected_t)
      as (r & -> & _ & _ & _ & ?).
Qed.
End entry_facts.

(** [split(sep)[0]] of a text with a separator is what stands before the
    first one. *)
Lemma first_field_app (sep : N) (a b : str) :
  sep ∉ a → first_field sep (a ++ sep :: b) = a.
Proof.
  induction a as [|c a IH]; simpl; intros Hsep.
  - by rewrite N.eqb_refl.
  - apply not_elem_of_cons in Hsep as [Hc Ha].
    destruct (N.eqb_spec c sep); [done|]. by rewrite IH.
Qed.

Lemma first_field_whole (sep : N) (a : str) :
  sep ∉ a → first_field sep a = a.
Proof.
  induction a as [|c a IH]; simpl; intros Hsep; [done|].
  apply not_elem_of_cons in Hsep as [Hc Ha].
  destruct (N.eqb_spec c sep); [done|]. by rewrite IH.
Qed.

(** * Further properties of the service, X1 to X13 *)

(** X1. For an expected text of fewer than [2^53] words, the three scores
    of the result lie between 0 and 100 (none is a NaN), whatever was
    spoken. *)
Theorem scores_in_range {U : Unicode} {Model}
    (self : PronunciationService Model) (spoken_t expected_t : str) :
  (Z.of_nat (length (words_of expected_t)) < 2 ^ 53)%Z →
  ∃ r, _score self spoken_t expected_t = Some r
       ∧ in_range (overall_score r)
       ∧ in_range (accuracy_score r)
       ∧ in_range (fluency_score r).
Proof.
  intros Hlen.
  destruct (_score_spec self spoken_t expected_t) as (r & Hr & _).
  exists r. split; [done|]. revert Hr.
  unfold _score. fold (words_of spoken_t) (words_of expected_t).
  destruct (DifflibFacts.get_opcodes_tiling
              (Difflib.new (words_of expected_t) (words_of spoken_t)))
    as (ops & -> & Hops). cbn [mbind option_bind].
  destruct (score_opcodes _ _ _ _ _) as [[cc wes]|] eqn:Hrun; [|done].
  cbn [mbind option_bind].
  apply (score_opcodes_credit _ _ _ 0) in Hrun; [|done|done|simpl; lia].
  unfold Py.truediv at 1. rewrite max_total_nonzero.
  cbn [mbind option_bind].
  destruct (_fluency_score _ _ _) as [fl|] eqn:Hfl; [|done].
  cbn [mbind option_bind]. intros [= <-]. simpl.
  fold (reported (Py.mul
    (Float (Py.to_float cc
            / Py.to_float (Py.max (Int (Z.of_nat (length (words_of expected_t))))
                             (Int 1)))) (Int 100))).
  set (den := Py.to_float (Py.max _ _)).
  assert (positive_finite den = true) as Hden.
  { unfold den, Py.max, Py.gt, Py.lt.
    destruct (Z.ltb_spec (Z.of_nat (length (words_of expected_t))) 1);
      [done|]. cbn [Py.to_float].
    apply float_of_int_positive_finite. lia. }
  assert (nonneg_float (Py.to_float cc / den * Py.float_of_int 100)) as Hacc.
  { apply mul_nonneg; [done|].
    apply div_nonneg; [done|]. by eapply credit_to_float. }
  apply _fluency_score_values in Hfl.
  assert (∃ f, fl = Float f ∧ positive_finite f = true
               ∧ positive_finite (f * 0.3) = true)
    as (f & -> & Hfl1 & Hfl2).
  { set_unfold in Hfl. destruct Hfl as [->|[->|[->|[]]]];
      by eexists. }
  split_and!.
  - apply reported_in_range. cbn [Py.mul Py.add Py.to_float].
    apply add_nonneg; [by apply mul_nonneg|by apply positive_finite_nonneg].
  - by apply reported_in_range.
  - by apply reported_in_range, positive_finite_nonneg.
Qed.

Lemma scores_in_range_witness :
  ∃ r, @_score BasicLatin.unicode _ fallback_service
         (str_of "hello wurld") (str_of "hello world") = Some r
       ∧ in_range (overall_score r)
       ∧ in_range (accuracy_score r)
       ∧ in_range (fluency_score r).
Proof.
  apply (@scores_in_range BasicLatin.unicode). vm_compute. reflexivity.
Defined.

(** X2. When the spoken text has the words of the expected text (the
    same words in the same order, at least one, fewer than [2^53]), every
    report is correct and pairs the word with itself, the three scores are
    100.0 and the feedback is the first message.  No bound on the length
    is needed for the alignment: the automatic junk heuristic of
    [SequenceMatcher] leaves a sequence aligned with itself whole. *)
Theorem perfect_reading {U : Unicode} {Model}
    (self : PronunciationService Model) (spoken_t expected_t : str) :
  words_of spoken_t = words_of expected_t →
  words_of expected_t ≠ [] →
  (Z.of_nat (length (words_of expected_t)) < 2 ^ 53)%Z →
  ∃ r, _score self spoken_t expected_t = Some r
       ∧ Forall (λ w, is_correct w = true ∧ spoken w = expected w)
                (word_errors r)
       ∧ accuracy_score r = Float 100
       ∧ fluency_score r = Float 100
       ∧ overall_score r = Float 100
       ∧ feedback r
         = "Excellent pronunciation! You sound very natural."%string.
Proof.
  intros Hsame Hne Hlen.
  unfold _score. fold (words_of spoken_t) (words_of expected_t).
  rewrite Hsame. set (ws := words_of expected_t) in *.
  assert (0 < length ws) as Hpos by (destruct ws; [done|simpl; lia]).
  rewrite AlignmentFacts.get_opcodes_self, decide_True by lia.
  cbn [mbind option_bind score_opcodes].
  destruct (score_equal_spec ws ws 0 0 (length ws) 0 [])
    as (new & Hrun & _); [apply words_of_nonempty|lia..|].
  rewrite Nat.sub_0_r, Hrun. cbn [mbind option_bind app].
  replace (Py.add (Int 0) (Int (Z.of_nat (length ws) - Z.of_nat 0)))
    with (Int (Z.of_nat (length ws))) by (simpl; f_equal; lia).
  rewrite max_total, truediv_ints by done.
  rewrite float_div_self by lia. cbn [mbind option_bind].
  rewrite _fluency_score_same_count by done. cbn [mbind option_bind].
  eexists. split; [done|]. cbn [word_errors accuracy_score fluency_score
                                overall_score feedback].
  split; [|by vm_compute].
  eapply score_equal_reports; [exact Hrun| |done].
  intros idx w s _ Hw Hs. simpl.
  rewrite Nat.sub_0_r in Hs. simpl in Hs. split; [done|congruence].
Qed.

Lemma perfect_reading_witness :
  ∃ r, @_score BasicLatin.unicode _ fallback_service
         (str_of "Hello, World!") (str_of "hello world") = Some r
       ∧ Forall (λ w, is_correct w = true ∧ spoken w = expected w)
                (word_errors r)
       ∧ accuracy_score r = Float 100
       ∧ fluency_score r = Float 100
       ∧ overall_score r = Float 100
       ∧ feedback r
         = "Excellent pronunciation! You sound very natural."%string.
Proof.
  apply (@perfect_reading BasicLatin.unicode);
    [vm_compute; reflexivity|vm_compute; discriminate
    |vm_compute; reflexivity].
Defined.

(** X3. When the spoken text has no word and the expected text has some
    (fewer than [2^53]), every report is incorrect with an empty spoken
    word, the accuracy is 0.0, the fluency 40.0, the overall score 12.0
    and the feedback the last message. *)
Theorem nothing_spoken {U : Unicode} {Model}
    (self : PronunciationService Model) (spoken_t expected_t : str) :
  words_of spoken_t = [] →
  words_of expected_t ≠ [] →
  (Z.of_nat (length (words_of expected_t)) < 2 ^ 53)%Z →
  ∃ r, _score self spoken_t expected_t = Some r
       ∧ Forall (λ w, is_correct w = false ∧ spoken w = [])
                (word_errors r)
       ∧ accuracy_score r = Float 0
       ∧ fluency_score r = Float 40
       ∧ overall_score r = Float 12
       ∧ feedback r
         = "Keep going! Every attempt makes you better. Try saying it slowly first."%string.
Proof.
  intros Hsilent Hne Hlen.
  unfold _score. fold (words_of spoken_t) (words_of expected_t).
  rewrite Hsilent. set (ws := words_of expected_t) in *.
  assert (0 < length ws) as Hpos by (destruct ws; [done|simpl; lia]).
  rewrite get_opcodes_empty_b by (simpl; lia).
  cbn [mbind option_bind score_opcodes Difflib.sm_a Difflib.new].
  destruct (score_delete_spec ws (length ws) 0 [])
    as (new & Hrun & _); [lia|].
  rewrite Nat.sub_0_r, Hrun. cbn [mbind option_bind app].
  rewrite max_total, (truediv_ints 0) by done.
  rewrite float_zero_div by (done || lia). cbn [mbind option_bind].
  rewrite _fluency_score_silence by done. cbn [mbind option_bind].
  eexists. split; [done|]. cbn [word_errors accuracy_score fluency_score
                                overall_score feedback].
  split; [|by vm_compute].
  eapply score_delete_reports; [exact Hrun| |done]. done.
Qed.

Lemma nothing_spoken_witness :
  ∃ r, @_score BasicLatin.unicode _ fallback_service
         (str_of "...") (str_of "hello world") = Some r
       ∧ Forall (λ w, is_correct w = false ∧ spoken w = [])
                (word_errors r)
       ∧ accuracy_score r = Float 0
       ∧ fluency_score r = Float 40
       ∧ overall_score r = Float 12
       ∧ feedback r
         = "Keep going! Every attempt makes you better. Try saying it slowly first."%string.
Proof.
  apply (@nothing_spoken BasicLatin.unicode);
    [vm_compute; reflexivity|vm_compute; discriminate
    |vm_compute; reflexivity].
Defined.

(** X4. Whenever as many words are spoken as expected (fewer than
    [2^53]), the fluency score is 100.0, whatever the words. *)
Theorem fluency_of_equal_counts {U : Unicode} {Model}
    (self : PronunciationService Model) (spoken_t expected_t : str) :
  length (words_of spoken_t) = length (words_of expected_t) →
  (Z.of_nat (length (words_of expected_t)) < 2 ^ 53)%Z →
  ∃ r, _score self spoken_t expected_t = Some r
       ∧ fluency_score r = Float 100.
Proof.
  intros Hsame Hlen.
  destruct (_score_spec self spoken_t expected_t) as (r & Hr & _).
  exists r. split; [done|]. revert Hr.
  unfold _score. fold (words_of spoken_t) (words_of expected_t).
  destruct (Difflib.get_opcodes _); [|done]. cbn [mbind option_bind].
  destruct (score_opcodes _ _ _ _ _) as [[cc wes]|]; [|done].
  cbn [mbind option_bind].
  destruct (Py.truediv _ _); [|done]. cbn [mbind option_bind].
  rewrite _fluency_score_same_count by done. cbn [mbind option_bind].
  intros [= <-]. cbn [fluency_score]. by vm_compute.
Qed.

Lemma fluency_of_equal_counts_witness :
  ∃ r, @_score BasicLatin.unicode _ fallback_service
         (str_of "good night") (str_of "hello world") = Some r
       ∧ fluency_score r = Float 100.
Proof.
  apply (@fluency_of_equal_counts BasicLatin.unicode);
    vm_compute; reflexivity.
Defined.

(** X5. Every report pairs its expected word with a spoken word or with
    the empty word.  It is marked correct whenever the similarity ratio of
    the two is at least 0.6; and if it is marked correct, the two words
    are the same or their similarity ratio is at least 0.6. *)
Theorem reports_follow_similarity {U : Unicode} {Model}
    (self : PronunciationService Model) (spoken_t expected_t : str) :
  ∃ r, _score self spoken_t expected_t = Some r
       ∧ Forall (λ w, (spoken w = [] ∨ spoken w ∈ words_of spoken_t)
                      ∧ mark_ok w)
                (word_errors r).
Proof.
  apply _score_reports.
  - intros idx w Hw Hs. split; [by right|]. by split; [|left].
  - intros idx w s sim Hw Hs Hsim. split; [done|].
    unfold mark_ok, close. simpl. rewrite Hsim. auto.
  - intros idx w Hw. split; [by left|].
    unfold mark_ok. simpl. rewrite close_empty; [done|].
    pose proof (words_of_nonempty expected_t) as Hne.
    rewrite Forall_forall in Hne. eapply Hne, list_elem_of_lookup_2, Hw.
Qed.

(** X6. When every expected word has fewer than [2^52] characters, a
    report is marked correct exactly when the similarity ratio of its
    two words is at least 0.6: a word paired with itself has ratio 1.0. *)
Theorem marks_are_similarity {U : Unicode} {Model}
    (self : PronunciationService Model) (spoken_t expected_t : str) :
  Forall (λ w, (Z.of_nat (length w + length w) < 2 ^ 53)%Z)
         (words_of expected_t) →
  ∃ r, _score self spoken_t expected_t = Some r
       ∧ Forall (λ w, is_correct w = close (expected w) (spoken w))
                (word_errors r).
Proof.
  intros Hlen. rewrite Forall_forall in Hlen.
  apply _score_reports.
  - intros idx w Hw _. unfold close. simpl.
    rewrite ratio_identical; [done|].
    by eapply Hlen, list_elem_of_lookup_2.
  - intros idx w s sim Hw Hs Hsim. unfold close. simpl. by rewrite Hsim.
  - intros idx w Hw. simpl. rewrite close_empty; [done|].
    pose proof (words_of_nonempty expected_t) as Hne.
    rewrite Forall_forall in Hne. eapply Hne, list_elem_of_lookup_2, Hw.
Qed.

Lemma marks_are_similarity_witness :
  ∃ r, @_score BasicLatin.unicode _ fallback_service
         (str_of "hello wurld") (str_of "hello world") = Some r
       ∧ Forall (λ w, is_correct w = close (expected w) (spoken w))
                (word_errors r).
Proof.
  apply (@marks_are_similarity BasicLatin.unicode).
  apply (bool_decide_unpack _). vm_compute. exact I.
Defined.

(** X7. The opcodes [_score] iterates over partition both word lists:
    their ranges follow one another without gap or overlap from the start
    to the end of the expected words and of the spoken words; a [replace]
    opcode is not empty on either side, a [delete] opcode covers no spoken
    word, an [insert] opcode no expected word, and an [equal] opcode
    covers as many of the ones as of the others, pairwise equal. *)
Theorem opcodes_partition `{Countable A} (a b : list A) :
  ∃ ops, Difflib.get_opcodes (Difflib.new a b) = Some ops
         ∧ Partition.tiling2 (0, 0) ops (length a, length b)
         ∧ Forall (Alignment.op_matches (Difflib.new a b)) ops.
Proof.
  destruct (DifflibFacts.get_opcodes_tiling (Difflib.new a b))
    as (ops & Hops & _).
  exists ops. split_and!; [done| |].
  - by apply (PartitionFacts.get_opcodes_tiling2 (Difflib.new a b)).
  - apply AlignmentFacts.get_opcodes_matches; [|done].
    apply AlignmentFacts.new_b2j_exact.
Qed.

(** X8. When the database classes the space (code point 32) as a space,
    every word [_score] aligns is non-empty and is made of word characters
    only: no space and no punctuation survives normalisation. *)
Theorem words_of_word_chars {U : Unicode} (text : str) :
  isspace 32%N = true →
  Forall (λ w, w ≠ [] ∧ Forall word_char w) (words_of text).
Proof.
  intros H32. apply Forall_and. split; [apply words_of_nonempty|].
  unfold words_of, split, _normalise.
  apply split_from_chars; [done|].
  apply strip_Forall, collapse_whitespace_Forall; [by rewrite H32|].
  unfold strip_punctuation. apply Forall_forall.
  intros c [_ Hc]%list_elem_of_In%filter_In Hsp. split; [|done].
  rewrite Hsp, orb_false_r in Hc. by destruct (is_word c).
Qed.

Lemma words_of_word_chars_witness :
  Forall (λ w, w ≠ [] ∧ Forall (@word_char BasicLatin.unicode) w)
         (@words_of BasicLatin.unicode (str_of "Hello,  World! ")).
Proof. apply (@words_of_word_chars BasicLatin.unicode). reflexivity. Defined.

(** X9. On ASCII texts, a punctuation character added to the spoken
    text, to the expected text, or to both changes nothing of the result
    but the text echoed: scores, reports and feedback are the same.  When
    one text only is changed, the other can be any text. *)
Theorem _score_ignores_punctuation {U : Unicode} {Model}
    (self : PronunciationService Model) (s1 s2 e1 e2 : str) (p q : N) :
  basic_latin U →
  ascii_text s1 → ascii_text s2 → ascii_text e1 → ascii_text e2 →
  ascii_punctuation p → ascii_punctuation q →
  (∀ expected_t,
     outcome <$> _score self (s1 ++ p :: s2) expected_t
     = outcome <$> _score self (s1 ++ s2) expected_t)
  ∧ (∀ spoken_t,
       outcome <$> _score self spoken_t (e1 ++ q :: e2)
       = outcome <$> _score self spoken_t (e1 ++ e2))
  ∧ outcome <$> _score self (s1 ++ p :: s2) (e1 ++ q :: e2)
    = outcome <$> _score self (s1 ++ s2) (e1 ++ e2).
Proof.
  intros HU Hs1 Hs2 He1 He2 Hp Hq. split_and!.
  - intros expected_t. apply _score_words; [|done].
    by apply words_of_punctuation.
  - intros spoken_t. apply _score_words; [done|].
    by apply words_of_punctuation.
  - apply _score_words; by apply words_of_punctuation.
Qed.

Lemma _score_ignores_punctuation_witness :
  (∀ expected_t,
     outcome <$> @_score BasicLatin.unicode _ fallback_service
                   (str_of "hello" ++ 44%N :: str_of " wurld") expected_t
     = outcome <$> @_score BasicLatin.unicode _ fallback_service
                     (str_of "hello" ++ str_of " wurld") expected_t)
  ∧ (∀ spoken_t,
       outcome <$> @_score BasicLatin.unicode _ fallback_service
                     spoken_t (str_of "hello world" ++ 33%N :: str_of "")
       = outcome <$> @_score BasicLatin.unicode _ fallback_service
                       spoken_t (str_of "hello world" ++ str_of ""))
  ∧ outcome <$> @_score BasicLatin.unicode _ fallback_service
                  (str_of "hello" ++ 44%N :: str_of " wurld")
                  (str_of "hello world" ++ 33%N :: str_of "")
    = outcome <$> @_score BasicLatin.unicode _ fallback_service
                    (str_of "hello" ++ str_of " wurld")
                    (str_of "hello world" ++ str_of "").
Proof.
  apply (@_score_ignores_punctuation BasicLatin.unicode);
    [apply basic_latin_self|ascii_by_evaluation..| |];
    (split_and!; [reflexivity|reflexivity|discriminate|reflexivity]).
Defined.

(** X10. On ASCII texts, the case of the letters changes nothing of the
    result but the texts echoed. *)
Theorem _score_ignores_case {U : Unicode} {Model}
    (self : PronunciationService Model) (spoken_t expected_t : str) :
  basic_latin U → ascii_text spoken_t → ascii_text expected_t →
  outcome <$> _score self (map BasicLatin.lower_cp spoken_t)
                (map BasicLatin.lower_cp expected_t)
  = outcome <$> _score self spoken_t expected_t.
Proof.
  intros HU Hs He. apply _score_words; by apply words_of_case.
Qed.

Lemma _score_ignores_case_witness :
  outcome <$> @_score BasicLatin.unicode _ fallback_service
                (map BasicLatin.lower_cp (str_of "HeLLo WURLD"))
                (map BasicLatin.lower_cp (str_of "Hello World"))
  = outcome <$> @_score BasicLatin.unicode _ fallback_service
                  (str_of "HeLLo WURLD") (str_of "Hello World").
Proof.
  apply (@_score_ignores_case BasicLatin.unicode);
    [apply basic_latin_self|ascii_by_evaluation..].
Defined.

(** X11. Without Whisper the route never fails on an audio upload that
    can be read: it answers the score of the placeholder transcript,
    whatever the recording and the language; and the service stays
    without Whisper for every later request, even if Whisper could be
    loaded by then. *)
Theorem fallback_never_fails {U : Unicode} {Model}
    (whisper_transcribe : Model → list Byte.byte → str → option str)
    _instance load_model audio expected_t language audio_bytes :
  fallback_mode _instance load_model →
  truthy (content_type audio) = true →
  startswith (str_of "audio/") (default [] (content_type audio)) = true →
  read audio = Some audio_bytes →
  ∃ r self,
    evaluate_pronunciation whisper_transcribe _instance load_model audio
      expected_t language = (Result r, Some self)
    ∧ _score self placeholder expected_t = Some r
    ∧ spoken_text r = placeholder
    ∧ ∀ load_model', fallback_mode (Some self) load_model'.
Proof.
  intros Hfb Hct Hst Hread. unfold evaluate_pronunciation.
  rewrite Hct, Hst, Hread. simpl.
  destruct _instance as [self|]; simpl in *.
  - destruct (evaluate_fallback whisper_transcribe self audio_bytes
                expected_t language Hfb) as (r & -> & Hr & Hs & _).
    by exists r, self.
  - subst load_model.
    destruct (evaluate_fallback whisper_transcribe (__init__ None)
                audio_bytes expected_t language eq_refl)
      as (r & -> & Hr & Hs & _).
    by exists r, (__init__ None).
Qed.

Lemma fallback_never_fails_witness :
  ∃ r self,
    @evaluate_pronunciation BasicLatin.unicode unit (λ _ _ _, None)
      None None
      {| content_type := Some (str_of "audio/wav"); read := Some [] |}
      (str_of "hello world") (str_of "en-US") = (Result r, Some self)
    ∧ @_score BasicLatin.unicode _ self placeholder (str_of "hello world")
      = Some r
    ∧ spoken_text r = placeholder
    ∧ ∀ load_model', fallback_mode (Some self) load_model'.
Proof.
  apply (@fallback_never_fails BasicLatin.unicode unit (λ _ _ _, None)
           None None
           {| content_type := Some (str_of "audio/wav"); read := Some [] |}
           (str_of "hello world") (str_of "en-US") []);
    reflexivity.
Defined.

(** X12. What the route answers.  An error is a 400 or a 500.  The 400,
    with its fixed detail, is answered exactly when the content type is
    missing, empty or does not start with ["audio/"], and then no service
    instance is built.  A 500 is answered only when reading the upload
    raised or Whisper did: scoring itself never fails.  A result echoes
    the expected text. *)
Theorem route_answers {U : Unicode} {Model}
    (whisper_transcribe : Model → list Byte.byte → str → option str)
    _instance load_model audio expected_t language :
  let is_audio :=
    truthy (content_type audio)
    && startswith (str_of "audio/") (default [] (content_type audio)) in
  let answer :=
    evaluate_pronunciation whisper_transcribe _instance load_model audio
      expected_t language in
  match answer.1 with
  | Result r => is_audio = true ∧ expected_text r = expected_t
  | HTTPException status_code detail =>
      (status_code = 400
       ∧ detail = Some "Upload must be an audio file."%string
       ∧ is_audio = false ∧ answer.2 = _instance)
      ∨ (status_code = 500 ∧ is_audio = true
         ∧ (read audio = None
            ∨ ∃ audio_bytes model,
                read audio = Some audio_bytes
                ∧ _whisper_model _ (get_instance _instance load_model).1
                  = Some model
                ∧ whisper_transcribe model audio_bytes
                    (first_field 45 language) = None))
  end.
Proof.
  unfold evaluate_pronunciation.
  destruct (truthy _), (startswith _ _); simpl; try (by left).
  destruct (read audio) as [audio_bytes|]; simpl; [|right; auto].
  destruct (get_instance _instance load_model) as [self st'] eqn:Hget.
  simpl.
  pose proof (evaluate_spec whisper_transcribe self audio_bytes expected_t
                language) as Hev.
  destruct (evaluate _ _ _ _ _) as [r|]; simpl; [done|].
  destruct Hev as (model & ? & ?).
  right. split_and!; [done..|]. right. by exists audio_bytes, model.
Qed.

(** X13. The region of the language tag is ignored: a language
    ["<primary>-<rest>"] is evaluated as ["<primary>"] is, with or
    without Whisper. *)
Theorem evaluate_ignores_region {U : Unicode} {Model}
    (whisper_transcribe : Model → list Byte.byte → str → option str)
    (self : PronunciationService Model) audio_bytes expected_t
    (primary rest : str) :
  45%N ∉ primary →
  evaluate whisper_transcribe self audio_bytes expected_t
    (primary ++ 45%N :: rest)
  = evaluate whisper_transcribe self audio_bytes expected_t primary.
Proof.
  intros Hp. unfold evaluate, _transcribe, _transcribe_whisper.
  by rewrite first_field_app, first_field_whole.
Qed.

Lemma evaluate_ignores_region_witness :
  @evaluate BasicLatin.unicode unit
    (λ _ _ lang_code, Some (str_of " hello " ++ lang_code))
    {| _whisper_model := Some () |} [] (str_of "hello world")
    (str_of "en" ++ 45%N :: str_of "US")
  = @evaluate BasicLatin.unicode unit
      (λ _ _ lang_code, Some (str_of " hello " ++ lang_code))
      {| _whisper_model := Some () |} [] (str_of "hello world")
      (str_of "en").
Proof.
  apply (@evaluate_ignores_region BasicLatin.unicode).
  apply (bool_decide_unpack _). vm_compute. exact I.
Defined.
